(** * auto-rag: the document-to-chunk pipeline of [rag_utils.py]

    A shallow embedding of the Markdown chunker, the tagger, the sidecar
    (YAML descriptor) accessor and the document processor, together with
    the properties the design document states about them.

    Python [str] values are sequences of Unicode code points: a character
    is a code point in [N] and a text is a list of them.  The sidecar
    store is a finite map from paths to file nodes. *)

From Stdlib Require Import List NArith ZArith Bool Lia String Ascii.
From stdpp Require Import gmap list.
Import ListNotations.

Set Default Proof Using "Type".
Local Open Scope N_scope.

(* ===================================================================== *)
(** ** Text: Python [str] *)
(* ===================================================================== *)

Module Text.

Abbreviation char := N (only parsing).
Abbreviation str := (list N) (only parsing).

(** Reading a literal of this file as a Python string (code points below 256). *)
Definition lit (s : string) : str :=
  List.map N_of_ascii (list_ascii_of_string s).

Definition LF : char := 10.
Definition CR : char := 13.

(** [str.isspace] on one code point, the set [str.strip()] removes:
    U+0009..U+000D, U+001C..U+0020, U+0085, U+00A0, U+1680,
    U+2000..U+200A, U+2028, U+2029, U+202F, U+205F, U+3000. *)
Definition isspace (c : char) : bool :=
  ((9 <=? c) && (c <=? 13)) || ((28 <=? c) && (c <=? 32))
  || (c =? 133) || (c =? 160) || (c =? 5760)
  || ((8192 <=? c) && (c <=? 8202))
  || (c =? 8232) || (c =? 8233) || (c =? 8239) || (c =? 8287) || (c =? 12288).

(** The line boundaries of [str.splitlines]:
    \n \v \f \r, U+001C..U+001E, U+0085, U+2028, U+2029. *)
Definition is_linebreak (c : char) : bool :=
  ((10 <=? c) && (c <=? 13)) || ((28 <=? c) && (c <=? 30))
  || (c =? 133) || (c =? 8232) || (c =? 8233).

(** [s.startswith(p)] *)
Fixpoint startswith (p s : str) : bool :=
  match p with
  | [] => true
  | a :: p' =>
      match s with
      | [] => false
      | b :: s' => (a =? b) && startswith p' s'
      end
  end.

(** [s.lstrip()], [s.rstrip()], [s.strip()] *)
Fixpoint lstrip (s : str) : str :=
  match s with
  | [] => []
  | c :: s' => if isspace c then lstrip s' else s
  end.

Definition rstrip (s : str) : str := rev (lstrip (rev s)).

Definition strip (s : str) : str := rstrip (lstrip s).

(** [sep.join(l)] *)
Fixpoint join (sep : str) (l : list str) : str :=
  match l with
  | [] => []
  | x :: l' =>
      match l' with
      | [] => x
      | _ :: _ => x ++ sep ++ join sep l'
      end
  end.

(** [s.splitlines()]: lines without their terminators; "\r\n" is one
    boundary; a final terminator opens no empty last line. *)
Fixpoint splitlines (s : str) : list str :=
  match s with
  | [] => []
  | c :: s' =>
      if is_linebreak c then
        [] :: (if c =? CR then
                 match s' with
                 | c2 :: s'' => if c2 =? LF then splitlines s'' else splitlines s'
                 | [] => splitlines s'
                 end
               else splitlines s')
      else
        match splitlines s' with
        | [] => [[c]]
        | l :: ls => (c :: l) :: ls
        end
  end.

(** Truth value of a Python sequence: non-empty. *)
Definition nonempty {A} (l : list A) : bool :=
  match l with [] => false | _ :: _ => true end.

(** [s[n:]] *)
Definition slice_from (n : nat) (s : str) : str := skipn n s.

End Text.
Import Text.

(* ===================================================================== *)
(** ** The chunker and the tagger *)
(* ===================================================================== *)

(** The break marker: the two-character heading prefix and a space. *)
Definition heading_prefix : str := [35; 35; 32].
Definition newline : str := [LF].

(** One turn of the [for line in lines] loop of [split_to_chunks], on the
    pair [(chunks, buf)]. *)
Definition split_step (st : list str * list str) (line : str)
  : list str * list str :=
  let '(chunks, buf) := st in
  let '(chunks, buf) :=
    if startswith heading_prefix line then
      if nonempty buf then (chunks ++ [strip (join newline buf)], [])
      else (chunks, buf)
    else (chunks, buf) in
  (chunks, buf ++ [line]).

Definition split_flush (st : list str * list str) : list str :=
  let '(chunks, buf) := st in
  if nonempty buf then chunks ++ [strip (join newline buf)] else chunks.

Definition split_to_chunks (content : str) : list str :=
  let st := fold_left split_step (splitlines content) ([], []) in
  List.filter nonempty (split_flush st).

Definition parse_all_headers (content : str) : list str :=
  List.map (fun line => strip (slice_from 3 line))
    (List.filter (startswith heading_prefix) (splitlines content)).

(* ===================================================================== *)
(** ** Python values, as [yaml.safe_load] builds them *)
(* ===================================================================== *)

(** Null, booleans, integers, strings, sequences and mappings (a [dict]
    keeps its insertion order; a key occurs once).  Floats and timestamps
    are left out. *)
#[warnings="-register-all"]
Inductive pyval : Type :=
| VNone
| VBool (b : bool)
| VInt (z : Z)
| VStr (s : str)
| VList (l : list pyval)
| VDict (m : list (pyval * pyval)).

(** Truth value: [bool(v)]. *)
Definition truthy (v : pyval) : bool :=
  match v with
  | VNone => false
  | VBool b => b
  | VInt z => negb (z =? 0)%Z
  | VStr s => nonempty s
  | VList l => nonempty l
  | VDict m => nonempty m
  end.

(** [isinstance(v, list)] *)
Definition is_list (v : pyval) : bool :=
  match v with VList _ => true | _ => false end.

(** [type(v).__name__] *)
Definition type_name (v : pyval) : str :=
  match v with
  | VNone => lit "NoneType"
  | VBool _ => lit "bool"
  | VInt _ => lit "int"
  | VStr _ => lit "str"
  | VList _ => lit "list"
  | VDict _ => lit "dict"
  end.

Fixpoint str_eqb (a b : str) : bool :=
  match a, b with
  | [], [] => true
  | x :: a', y :: b' => (x =? y) && str_eqb a' b'
  | _, _ => false
  end.

(** [a == b]: [True == 1], sequences by position, mappings by key. *)
Fixpoint py_eqb (a b : pyval) {struct a} : bool :=
  match a with
  | VNone => match b with VNone => true | _ => false end
  | VBool x =>
      match b with
      | VBool y => Bool.eqb x y
      | VInt y => (Z.b2z x =? y)%Z
      | _ => false
      end
  | VInt x =>
      match b with
      | VInt y => (x =? y)%Z
      | VBool y => (x =? Z.b2z y)%Z
      | _ => false
      end
  | VStr x => match b with VStr y => str_eqb x y | _ => false end
  | VList xs =>
      match b with
      | VList ys =>
          (fix go (xs ys : list pyval) : bool :=
             match xs, ys with
             | [], [] => true
             | x :: xs', y :: ys' => py_eqb x y && go xs' ys'
             | _, _ => false
             end) xs ys
      | _ => false
      end
  | VDict xm =>
      match b with
      | VDict ym =>
          (length xm =? length ym)%nat &&
          (fix all (xm : list (pyval * pyval)) : bool :=
             match xm with
             | [] => true
             | (k, v) :: xm' =>
                 (fix look (ym : list (pyval * pyval)) : bool :=
                    match ym with
                    | [] => false
                    | (k', v') :: ym' =>
                        if py_eqb k k' then py_eqb v v' else look ym'
                    end) ym && all xm'
             end) xm
      | _ => false
      end
  end.

(** Exceptions: the class name and [str(e)]. *)
Record exn : Type := Exn { exn_class : str; exn_text : str }.

Inductive res (A : Type) : Type :=
| Ok (a : A)
| Raise (e : exn).
Arguments Ok {A} a.
Arguments Raise {A} e.

(** [d.get(key, default)] on a loaded value: only a [dict] has [get]. *)
Fixpoint dict_lookup (m : list (pyval * pyval)) (key : str) : option pyval :=
  match m with
  | [] => None
  | (k, v) :: m' => if py_eqb k (VStr key) then Some v else dict_lookup m' key
  end.

Definition attribute_error (v : pyval) (attr : str) : exn :=
  Exn (lit "AttributeError")
      (lit "'" ++ type_name v ++ lit "' object has no attribute '" ++ attr ++ lit "'").

Definition py_get (v : pyval) (key : str) (default : pyval) : res pyval :=
  match v with
  | VDict m =>
      Ok (match dict_lookup m key with Some x => x | None => default end)
  | _ => Raise (attribute_error v (lit "get"))
  end.

Definition DOC_ID : str := Eval cbv in lit "doc_id".
Definition TAGS : str := Eval cbv in lit "tags".
Definition MISC : str := Eval cbv in lit "Misc".

(** [tag_chunks]: the loop appends one tag per chunk. *)
Definition tag_chunks (chunks : list str) (tags : list pyval) : list pyval :=
  fold_left
    (fun results (ch : str) =>
       results ++ [match tags with t :: _ => t | [] => VStr MISC end])
    chunks [].

(* ===================================================================== *)
(** ** Paths ([pathlib]) and the file store *)
(* ===================================================================== *)

(** A path is its parent directory and its final component. *)
Abbreviation path := (list N * list N)%type (only parsing).

Definition parent (p : path) : str := fst p.
Definition name (p : path) : str := snd p.

(** [name.rfind('.')] *)
Fixpoint rfind_dot (s : str) : option nat :=
  match s with
  | [] => None
  | c :: s' =>
      match rfind_dot s' with
      | Some i => Some (S i)
      | None => if c =? 46 then Some 0%nat else None
      end
  end.

(** [PurePath.stem]: the name up to its last dot, when that dot is neither
    the first nor the last character. *)
Definition stem (p : path) : str :=
  match rfind_dot (name p) with
  | Some i =>
      if (0 <? i)%nat && (i <? length (name p) - 1)%nat
      then firstn i (name p) else name p
  | None => name p
  end.

(** [PurePath.with_suffix]: the old suffix, if any, is replaced. *)
Definition with_suffix (p : path) (suffix : str) : path :=
  (parent p, stem p ++ suffix).

Definition YAML_EXT : str := Eval cbv in lit ".yaml".
Definition YML_EXT : str := Eval cbv in lit ".yml".
Definition MD_EXT : str := Eval cbv in lit ".md".

(** [str(p)] *)
Definition path_str (p : path) : str :=
  match parent p with
  | [] => name p
  | d => d ++ [47] ++ name p
  end.

(** What [rglob('*.md')] selects: names ending in ".md". *)
Definition is_md (p : path) : Prop := exists base, name p = base ++ MD_EXT.

(** A node of the store: a readable text file, or an entry whose [open] or
    [read] raises (a directory, a permission or a decoding failure). *)
Inductive node : Type :=
| File (content : str)
| Broken (e : exn).

(** The store: the nodes by path, the paths that cannot be written, and
    the paths the operating system refuses to look at, each with the
    error it answers. *)
Record fsys : Type := Fsys {
  files : gmap (list N * list N) node;
  readonly : gset (list N * list N);
  refused : gmap (list N * list N) exn
}.

(** The error of [os.stat] on a path, if it raises one that [pathlib] lets
    through (a name longer than the file system allows, a directory that
    may not be searched).  Such a path names no node and nothing can be
    created at it; a path that names a node, or that can be written, is
    looked at without error. *)
Definition stat_error (fs : fsys) (p : path) : option exn :=
  match files fs !! p with
  | Some _ => None
  | None => if bool_decide (p ∈ readonly fs) then refused fs !! p else None
  end.

(* ===================================================================== *)
(** ** Effects: store, exceptions, log *)
(* ===================================================================== *)

Inductive level : Type := DEBUG | INFO | WARNING | ERROR.

Inductive event : Type :=
| SidecarUnreadable (p : path) (e : exn)
| SidecarKept (p : path)
| SidecarCreated (p : path)
| SidecarFailed (p : path) (e : exn).

Definition log_entry : Type := level * event.

(** A computation reads and updates the store, returns or raises, and
    emits log records. *)
Definition M (A : Type) : Type := fsys -> res A * fsys * list log_entry.

Definition ret {A} (a : A) : M A := fun fs => (Ok a, fs, []).

Definition raise {A} (e : exn) : M A := fun fs => (Raise e, fs, []).

Definition bind {A B} (m : M A) (k : A -> M B) : M B :=
  fun fs =>
    match m fs with
    | (Ok a, fs1, l1) =>
        match k a fs1 with
        | (r, fs2, l2) => (r, fs2, l1 ++ l2)
        end
    | (Raise e, fs1, l1) => (Raise e, fs1, l1)
    end.

(** [try: m  except Exception as e: handler e] *)
Definition try_except {A} (m : M A) (handler : exn -> M A) : M A :=
  fun fs =>
    match m fs with
    | (Ok a, fs1, l1) => (Ok a, fs1, l1)
    | (Raise e, fs1, l1) =>
        match handler e fs1 with
        | (r, fs2, l2) => (r, fs2, l1 ++ l2)
        end
    end.

Definition lift {A} (r : res A) : M A := fun fs => (r, fs, []).

Definition logger (lv : level) (ev : event) : M unit :=
  fun fs => (Ok tt, fs, [(lv, ev)]).

Notation "x <- m ;; k" := (bind m (fun x => k))
  (at level 100, m at next level, right associativity).
Notation "m ;;; k" := (bind m (fun _ => k))
  (at level 100, right associativity).

(** [p.exists()]: [True] or [False] when [os.stat] answers or reports
    that nothing is there, and the error of [os.stat] otherwise. *)
Definition path_exists (p : path) : M bool :=
  fun fs =>
    match stat_error fs p with
    | Some e => (Raise e, fs, [])
    | None => (Ok (bool_decide (is_Some (files fs !! p))), fs, [])
    end.

(** The operating system's errors; their text stands for its message. *)
Definition file_not_found (p : path) : exn :=
  Exn (lit "FileNotFoundError") (path_str p).

Definition not_writable (p : path) : exn :=
  Exn (lit "PermissionError") (path_str p).

(** [open(p, encoding='utf-8').read()] *)
Definition read_text (p : path) : M str :=
  fun fs =>
    match files fs !! p with
    | Some (File s) => (Ok s, fs, [])
    | Some (Broken e) => (Raise e, fs, [])
    | None =>
        match stat_error fs p with
        | Some e => (Raise e, fs, [])
        | None => (Raise (file_not_found p), fs, [])
        end
    end.

(** [open(p, 'w', encoding='utf-8')] and the write of [s]: the whole text
    is stored, or the open fails and nothing changes. *)
Definition write_text (p : path) (s : str) : M unit :=
  fun fs =>
    match stat_error fs p with
    | Some e => (Raise e, fs, [])
    | None =>
        if bool_decide (p ∈ readonly fs) then (Raise (not_writable p), fs, [])
        else (Ok tt,
              Fsys (<[p := File s]> (files fs)) (readonly fs) (refused fs), [])
    end.

(** [for x in l: st = body st x] *)
Fixpoint for_each {A S} (body : S -> A -> M S) (l : list A) (st : S) : M S :=
  match l with
  | [] => ret st
  | x :: l' => st' <- body st x ;; for_each body l' st'
  end.

(* ===================================================================== *)
(** ** The YAML library *)
(* ===================================================================== *)

(** [yaml.safe_load] and [yaml.dump] are the library's; the pipeline is
    stated over any pair of them. *)
Class YamlCodec : Type := {
  safe_load : str -> res pyval;
  dump : pyval -> str
}.

(** What [generate_yaml_metadata] serialises. *)
Definition descriptor (doc_id : pyval) (tags : list pyval) : pyval :=
  VDict [(VStr DOC_ID, doc_id); (VStr TAGS, VList tags)].


(** A descriptor written by [dump] is read back by [safe_load] as written. *)
Definition round_trips (Y : YamlCodec) : Prop :=
  forall doc_id tags,
    safe_load (dump (descriptor doc_id tags)) = Ok (descriptor doc_id tags).

(* ===================================================================== *)
(** ** The sidecar accessor *)
(* ===================================================================== *)

Section Pipeline.
Context {Y : YamlCodec}.

(** The [try] block that both probes of [load_yaml_metadata] run on the
    sidecar they found: read, parse, [metadata if metadata else {}]; any
    exception is logged and answered with the empty mapping. *)
Definition load_sidecar (yaml_path : path) : M pyval :=
  try_except
    (text <- read_text yaml_path ;;
     metadata <- lift (safe_load text) ;;
     ret (if truthy metadata then metadata else VDict []))
    (fun e =>
       logger WARNING (SidecarUnreadable yaml_path e) ;;;
       ret (VDict [])).

Definition load_yaml_metadata (md_file_path : path) : M pyval :=
  let yaml_path := with_suffix md_file_path YAML_EXT in
  found <- path_exists yaml_path ;;
  if found then load_sidecar yaml_path
  else
    let yaml_path := with_suffix md_file_path YML_EXT in
    found <- path_exists yaml_path ;;
    if found then load_sidecar yaml_path
    else ret (VDict []).

Definition generate_yaml_metadata (md_file_path : path) (doc_id : pyval)
    (tags : list pyval) (overwrite : bool) : M path :=
  let yaml_path := with_suffix md_file_path YAML_EXT in
  found <- path_exists yaml_path ;;
  if found && negb overwrite then
    logger DEBUG (SidecarKept yaml_path) ;;;
    ret yaml_path
  else
    let metadata := descriptor doc_id (if nonempty tags then tags else []) in
    try_except
      (write_text yaml_path (dump metadata) ;;;
       logger INFO (SidecarCreated yaml_path) ;;;
       ret yaml_path)
      (fun e =>
         logger ERROR (SidecarFailed yaml_path e) ;;;
         raise e).

(* ===================================================================== *)
(** ** The document processor *)
(* ===================================================================== *)

Record chunk_obj : Type := Chunk {
  text : str;
  meta_doc_id : pyval;
  meta_tag : pyval;
  meta_tags : list pyval;
  chunk_path : str
}.

Record processed_entry : Type := Processed {
  p_file : str;
  p_doc_id : pyval;
  p_tags : list pyval;
  p_chunks : nat
}.

Record error_entry : Type := Failed { e_file : str; e_err : str }.

Record report : Type := Report {
  processed : list processed_entry;
  errors : list error_entry
}.

(** Lines 148-156: the reconciled [doc_id] and [tags]. *)
Definition reconcile (overwrite_yaml : bool) (f : path) (metadata : pyval)
    (tags_from_metadata : pyval) (tags_from_headers : list str)
  : M (pyval * list pyval) :=
  if overwrite_yaml then
    ret (VStr (stem f), List.map VStr tags_from_headers)
  else
    doc_id <- lift (py_get metadata DOC_ID (VStr (stem f))) ;;
    ret (doc_id,
         if truthy tags_from_metadata then
           match tags_from_metadata with
           | VList l => l
           | _ => [tags_from_metadata]
           end
         else List.map VStr tags_from_headers).

(** Lines 162-167: the value of [should_generate]. *)
Definition should_generate (found overwrite_yaml : bool)
    (stored_doc_id doc_id tags_from_metadata : pyval)
    (tags_from_headers : list str) : bool :=
  negb found
  || overwrite_yaml
  || negb (py_eqb stored_doc_id doc_id)
  || (negb (truthy tags_from_metadata) && nonempty tags_from_headers).

(** Lines 159-170: the sidecar step.  [metadata] is a mapping here
    ([metadata.get('tags', [])] has returned), so [metadata.get('doc_id')]
    does not raise and the order of the [or] does not matter;
    [yaml_path.exists()] is asked again for the flag of the call. *)
Definition sidecar_step (auto_generate_yaml overwrite_yaml : bool) (f : path)
    (metadata tags_from_metadata : pyval) (tags_from_headers : list str)
    (doc_id : pyval) (tags : list pyval) : M unit :=
  if auto_generate_yaml then
    let yaml_path := with_suffix f YAML_EXT in
    found <- path_exists yaml_path ;;
    stored <- lift (py_get metadata DOC_ID VNone) ;;
    if should_generate found overwrite_yaml stored doc_id
         tags_from_metadata tags_from_headers
    then
      found' <- path_exists yaml_path ;;
      generate_yaml_metadata f doc_id tags (overwrite_yaml || negb found') ;;;
      ret tt
    else ret tt
  else ret tt.

(** The body of the [try] of the loop, for one file: what it appends to
    [all_chunks] and to [report["processed"]]. *)
Definition process_file (auto_generate_yaml overwrite_yaml : bool) (f : path)
  : M (list chunk_obj * processed_entry) :=
  md_content <- read_text f ;;
  metadata <- load_yaml_metadata f ;;
  tags_from_metadata <- lift (py_get metadata TAGS (VList [])) ;;
  let tags_from_headers := parse_all_headers md_content in
  dt <- reconcile overwrite_yaml f metadata tags_from_metadata
          tags_from_headers ;;
  let doc_id := fst dt in
  let tags := snd dt in
  sidecar_step auto_generate_yaml overwrite_yaml f metadata
    tags_from_metadata tags_from_headers doc_id tags ;;;
  let chunks := split_to_chunks md_content in
  let chunk_tags := tag_chunks chunks tags in
  ret (List.map (fun ct => Chunk (fst ct) doc_id (snd ct) tags (path_str f))
         (combine chunks chunk_tags),
       Processed (path_str f) doc_id tags (length chunks)).

(** One turn of [for f in md_files], on [(all_chunks, report)]. *)
Definition process_body (auto_generate_yaml overwrite_yaml : bool)
    (st : list chunk_obj * report) (f : path) : M (list chunk_obj * report) :=
  try_except
    (out <- process_file auto_generate_yaml overwrite_yaml f ;;
     ret (fst st ++ fst out,
          Report (processed (snd st) ++ [snd out]) (errors (snd st))))
    (fun e =>
       ret (fst st,
            Report (processed (snd st))
                   (errors (snd st) ++ [Failed (path_str f) (exn_text e)]))).

(** [process_markdown_docs], on the list [rglob('*.md')] returned. *)
Definition process_markdown_docs (md_files : list path)
    (auto_generate_yaml overwrite_yaml : bool) : M (list chunk_obj * report) :=
  for_each (process_body auto_generate_yaml overwrite_yaml) md_files
    ([], Report [] []).

End Pipeline.

(* ===================================================================== *)
(** ** Notions used in the statements *)
(* ===================================================================== *)

(** A text made of whitespace only. *)
Definition all_space (s : str) : Prop := Forall (fun c => isspace c = true) s.

(** The characters of a text that are not whitespace, in order. *)
Definition ink (s : str) : str := List.filter (fun c => negb (isspace c)) s.

(** A group of lines that opens with a break marker. *)
Definition headed (g : list str) : Prop :=
  match g with
  | [] => False
  | line :: _ => startswith heading_prefix line = true
  end.

(** A chunk that opens with its heading: the break marker, or the bare
    "##" that trimming leaves of an empty heading at the end of a chunk. *)
Definition opens_with_heading (ch : str) : Prop :=
  startswith heading_prefix ch = true \/ ch = [35; 35].

(** The chunk text a group of lines is flushed as. *)
Definition flushed (g : list str) : str := strip (join newline g).

(** The buffers the chunker fills, kept as groups of lines. *)
Definition group_step (st : list (list str) * list str) (line : str)
  : list (list str) * list str :=
  let '(groups, buf) := st in
  if startswith heading_prefix line && nonempty buf
  then (groups ++ [buf], [line])
  else (groups, buf ++ [line]).

Definition group_flush (st : list (list str) * list str) : list (list str) :=
  let '(groups, buf) := st in
  if nonempty buf then groups ++ [buf] else groups.

Definition line_groups (lines : list str) : list (list str) :=
  group_flush (fold_left group_step lines ([], [])).

(** [w0 ++ c1 ++ w1 ++ ... ++ cn ++ wn] *)
Definition interleave (w0 : str) (cws : list (str * str)) : str :=
  w0 ++ concat (List.map (fun cw => fst cw ++ snd cw) cws).

(** The state of the grouping loop: the buffer is empty only before the
    first line, a flushed group is never empty, and every group after the
    first opens with a break marker. *)
Definition group_inv (st : list (list str) * list str) : Prop :=
  (snd st = [] -> fst st = [])
  /\ Forall (fun g => g <> []) (fst st)
  /\ Forall headed (tl (fst st ++ [snd st])).

(** What the loader's [try] block answers for a sidecar node: its parsed
    content if that is truthy, the empty mapping otherwise. *)
Definition parsed_or_empty {Y : YamlCodec} (n : node) : pyval :=
  match n with
  | File text =>
      match safe_load text with
      | Ok v => if truthy v then v else VDict []
      | Raise _ => VDict []
      end
  | Broken _ => VDict []
  end.

(** The Descriptor of a document in a store: the ".yaml" sidecar if there
    is one, else the ".yml" sidecar if there is one, else empty; the error
    of the first probe that the system refuses, if one is reached. *)
Definition loaded {Y : YamlCodec} (fs : fsys) (f : path) : res pyval :=
  match files fs !! with_suffix f YAML_EXT with
  | Some n => Ok (parsed_or_empty n)
  | None =>
      match stat_error fs (with_suffix f YAML_EXT) with
      | Some e => Raise e
      | None =>
          match files fs !! with_suffix f YML_EXT with
          | Some n => Ok (parsed_or_empty n)
          | None =>
              match stat_error fs (with_suffix f YML_EXT) with
              | Some e => Raise e
              | None => Ok (VDict [])
              end
          end
      end
  end.

(** Reconciliation, in the words of the design: the Descriptor's [doc_id]
    if present, else the filename stem. *)
Definition spec_doc_id (m : list (pyval * pyval)) (f : path) : pyval :=
  match dict_lookup m DOC_ID with
  | Some d => d
  | None => VStr (stem f)
  end.

(** The Descriptor's [tags] if non-empty (a bare scalar becomes a
    one-element sequence), else the tags from the headings. *)
Definition spec_tags (m : list (pyval * pyval)) (headers : list str)
  : list pyval :=
  match dict_lookup m TAGS with
  | Some (VList (t :: ts)) => t :: ts
  | Some v => if truthy v then [v] else List.map VStr headers
  | None => List.map VStr headers
  end.

Definition spec_reconciled (overwrite : bool) (f : path)
    (m : list (pyval * pyval)) (headers : list str) : pyval * list pyval :=
  if overwrite then (VStr (stem f), List.map VStr headers)
  else (spec_doc_id m f, spec_tags m headers).

(** The chunk records and the report entry of a document. *)
Definition produced (f : path) (content : str) (doc_id : pyval)
    (tags : list pyval) : list chunk_obj * processed_entry :=
  (List.map
     (fun ct => Chunk (fst ct) doc_id (snd ct) tags (path_str f))
     (combine (split_to_chunks content)
        (tag_chunks (split_to_chunks content) tags)),
   Processed (path_str f) doc_id tags (length (split_to_chunks content))).

(** The store with one sidecar written. *)
Definition with_sidecar (fs : fsys) (p : path) (s : str) : fsys :=
  Fsys (<[p := File s]> (files fs)) (readonly fs) (refused fs).

(** What one turn of the loop adds to [(all_chunks, report)], given how
    the file's processing ended. *)
Definition absorb (st : list chunk_obj * report) (f : path)
    (r : res (list chunk_obj * processed_entry)) : list chunk_obj * report :=
  match r with
  | Ok out =>
      (fst st ++ fst out,
       Report (processed (snd st) ++ [snd out]) (errors (snd st)))
  | Raise e =>
      (fst st,
       Report (processed (snd st))
         (errors (snd st) ++ [Failed (path_str f) (exn_text e)]))
  end.

Definition absorb_all (st : list chunk_obj * report)
    (outs : list (path * res (list chunk_obj * processed_entry)))
  : list chunk_obj * report :=
  fold_left (fun st fr => absorb st (fst fr) (snd fr)) outs st.




(* ===================================================================== *)
(** ** A small codec, to run the pipeline on concrete stores *)
(* ===================================================================== *)

Module Toy.

Fixpoint to_tree (v : pyval) : gen_tree (bool + Z + list N) :=
  match v with
  | VNone => GenNode 0 []
  | VBool b => GenLeaf (inl (inl b))
  | VInt z => GenLeaf (inl (inr z))
  | VStr s => GenLeaf (inr s)
  | VList l => GenNode 1 (List.map to_tree l)
  | VDict m =>
      GenNode 2
        (List.map (fun kv => match kv with
                             | (k, v) => GenNode 3 [to_tree k; to_tree v]
                             end) m)
  end.

Fixpoint of_tree (t : gen_tree (bool + Z + list N)) : pyval :=
  match t with
  | GenLeaf (inl (inl b)) => VBool b
  | GenLeaf (inl (inr z)) => VInt z
  | GenLeaf (inr s) => VStr s
  | GenNode 1 ts => VList (List.map of_tree ts)
  | GenNode 2 ts =>
      VDict
        (List.map (fun t => match t with
                            | GenNode _ [a; b] => (of_tree a, of_tree b)
                            | _ => (VNone, VNone)
                            end) ts)
  | GenNode _ _ => VNone
  end.

(** A positive number written in binary digits, least significant first. *)
Fixpoint digits (p : positive) : str :=
  match p with
  | xH => []
  | xO p' => 48 :: digits p'
  | xI p' => 49 :: digits p'
  end.

Fixpoint undigits (s : str) : positive :=
  match s with
  | [] => xH
  | c :: s' => if c =? 48 then xO (undigits s') else xI (undigits s')
  end.

Definition parse_error : exn := Exn (lit "YAMLError") (lit "cannot parse").

Definition toy_dump (v : pyval) : str := digits (encode (to_tree v)).

Definition toy_load (s : str) : res pyval :=
  match decode (undigits s) with
  | Some t => Ok (of_tree t)
  | None => Raise parse_error
  end.

Definition codec : YamlCodec := {| safe_load := toy_load; dump := toy_dump |}.

End Toy.

(* ===================================================================== *)
(** ** A codec that folds line breaks *)
(* ===================================================================== *)

(** The small codec, except that a NEL (U+0085) inside a string is read
    back as a space: what a YAML reader does when it folds the line break
    of a quoted scalar. *)
Module Folding.

Definition fold_char (c : char) : char := if c =? 133 then 32 else c.

Fixpoint fold_value (v : pyval) : pyval :=
  match v with
  | VStr s => VStr (List.map fold_char s)
  | VList l => VList (List.map fold_value l)
  | VDict m =>
      VDict (List.map (fun kv => match kv with
                                 | (k, x) => (fold_value k, fold_value x)
                                 end) m)
  | _ => v
  end.

Definition folding_load (s : str) : res pyval :=
  match Toy.toy_load s with
  | Ok v => Ok (fold_value v)
  | Raise e => Raise e
  end.

Definition codec : YamlCodec :=
  {| safe_load := folding_load; dump := Toy.toy_dump |}.



End Folding.

(* ===================================================================== *)
(** ** Concrete documents and stores *)
(* ===================================================================== *)

Module Demo.

Definition a_md : path := (lit "docs", lit "a.md").
Definition b_md : path := (lit "docs", lit "b.md").
Definition a_yaml : path := (lit "docs", lit "a.yaml").
Definition a_yml : path := (lit "docs", lit "a.yml").

(** The document of the design's scenario. *)
Definition body : str := lit "Intro
## Setup
Step 1
## Usage
Step 2".

Definition yaml_node : node :=
  File (Toy.toy_dump (descriptor (VStr (lit "X")) [VStr (lit "t")])).

Definition yml_node : node :=
  File (Toy.toy_dump (descriptor (VStr (lit "Z")) [])).

(** One document, no sidecar. *)
Definition fs_plain : fsys := Fsys (<[a_md := File body]> ∅) ∅ ∅.

(** One document with both sidecars. *)
Definition fs_both : fsys :=
  Fsys (<[a_md := File body]> (<[a_yaml := yaml_node]> (<[a_yml := yml_node]> ∅)))
       ∅ ∅.

(** A document whose name is 254 bytes long: the name of its ".yaml"
    sidecar is one byte longer than the 255 the file system allows, and
    [os.stat] answers it with an error that [exists()] lets through. *)
Definition long_md : path := (lit "docs", List.repeat 97 251 ++ lit ".md").

Definition name_too_long : exn :=
  Exn (lit "OSError") (lit "[Errno 36] File name too long").

Definition fs_long : fsys :=
  Fsys (<[long_md := File body]> ∅)
       {[with_suffix long_md YAML_EXT]}
       {[with_suffix long_md YAML_EXT := name_too_long]}.

(** An unreadable document next to a readable one. *)
Definition fs_broken : fsys :=
  Fsys (<[a_md := Broken (Exn (lit "PermissionError") (lit "denied"))]>
          (<[b_md := File body]> ∅))
       ∅ ∅.

End Demo.

(* ===================================================================== *)
(** ** Further notions for the chunker *)
(* ===================================================================== *)

(** What follows a line boundary: "\r\n" is one boundary. *)
Definition after_break (c : char) (s : str) : str :=
  if c =? CR then
    match s with
    | c2 :: s' => if c2 =? LF then s' else s
    | [] => s
    end
  else s.

(** A text in which no line boundary is followed by a break marker: only
    its first line can be a heading. *)
Definition marker_only_first (s : str) : Prop :=
  forall a c b, s = a ++ c :: heading_prefix ++ b -> is_linebreak c = false.

(** Does a group of lines open with a break marker? *)
Definition headedb (g : list str) : bool :=
  match g with
  | [] => false
  | line :: _ => startswith heading_prefix line
  end.

(** The tails of the groups hold no break-marker line. *)
Definition tails_plain (gs : list (list str)) : Prop :=
  Forall (fun g => Forall (fun line => startswith heading_prefix line = false)
                     (tl g)) gs.

(** A chunk record as the walk builds it: a non-empty, trimmed text, and
    the tag the tagger gives for the record's own tag list. *)
Definition chunk_well_formed (c : chunk_obj) : Prop :=
  text c <> []
  /\ strip (text c) = text c
  /\ meta_tag c = match meta_tags c with t :: _ => t | [] => VStr MISC end.

(** The report entry a chunk record belongs to. *)
Definition chunk_of_entry (e : processed_entry) (c : chunk_obj) : Prop :=
  p_file e = chunk_path c
  /\ p_doc_id e = meta_doc_id c
  /\ p_tags e = meta_tags c.

(* ===================================================================== *)
(** ** The vector store ([vector_store.py]) *)
(* ===================================================================== *)

(** The [leann] library, the environment and the index directory, as the
    adapter sees them: an abstract world on which every call returns or
    raises.  A builder and a searcher are the library's objects. *)
Class Backend : Type := {
  world : Type;
  builder : Type;
  searcher : Type;
  results : Type;
  has_leann : bool;
  getenv : str -> world -> option str;
  joinpath : str -> str -> str;
  mkdir : str -> world -> res unit * world;
  index_exists : str -> world -> bool;
  rmtree : str -> world -> res unit * world;
  new_builder : str -> str -> str -> world -> res builder * world;
  add_text_metadata :
    builder -> str -> pyval * pyval * list pyval -> world -> res unit * world;
  add_text : builder -> str -> world -> res unit * world;
  build : builder -> world -> res unit * world;
  new_searcher : str -> world -> res searcher * world;
  searcher_search :
    searcher -> str -> Z -> world -> res results * world
}.

(** "Индекс не создан. Сначала загрузите чанки." *)
Definition NOT_CREATED : str :=
  [1048; 1085; 1076; 1077; 1082; 1089; 32; 1085; 1077; 32; 1089; 1086; 1079;
   1076; 1072; 1085; 46; 32; 1057; 1085; 1072; 1095; 1072; 1083; 1072; 32;
   1079; 1072; 1075; 1088; 1091; 1079; 1080; 1090; 1077; 32; 1095; 1072;
   1085; 1082; 1080; 46].

(** "Индекс не найден: " *)
Definition NOT_FOUND : str :=
  [1048; 1085; 1076; 1077; 1082; 1089; 32; 1085; 1077; 32; 1085; 1072; 1081;
   1076; 1077; 1085; 58; 32].

(** The text of the [ImportError] of the constructor. *)
Definition NO_LEANN : str :=
  [76; 69; 65; 78; 78; 32; 1085; 1077; 32; 1091; 1089; 1090; 1072; 1085;
   1086; 1074; 1083; 1077; 1085; 32; 1080; 1083; 1080; 32; 1085; 1077; 1076;
   1086; 1089; 1090; 1091; 1087; 1077; 1085; 32; 1076; 1083; 1103; 32; 1074;
   1072; 1096; 1077; 1081; 32; 1089; 1080; 1089; 1090; 1077; 1084; 1099; 46;
   10; 1055; 1086; 1087; 1088; 1086; 1073; 1091; 1081; 1090; 1077; 58; 10;
   32; 32; 49; 46; 32; 117; 118; 32; 112; 105; 112; 32; 105; 110; 115; 116;
   97; 108; 108; 32; 108; 101; 97; 110; 110; 32; 40; 1088; 1077; 1082; 1086;
   1084; 1077; 1085; 1076; 1091; 1077; 1090; 1089; 1103; 41; 10; 32; 32; 50;
   46; 32; 1059; 1089; 1090; 1072; 1085; 1086; 1074; 1082; 1072; 32; 1080;
   1079; 32; 1080; 1089; 1093; 1086; 1076; 1085; 1080; 1082; 1086; 1074; 58;
   32; 103; 105; 116; 32; 99; 108; 111; 110; 101; 32; 104; 116; 116; 112;
   115; 58; 47; 47; 103; 105; 116; 104; 117; 98; 46; 99; 111; 109; 47; 121;
   105; 99; 104; 117; 97; 110; 45; 119; 47; 76; 69; 65; 78; 78; 46; 103; 105;
   116; 10; 1055; 1086; 1076; 1088; 1086; 1073; 1085; 1077; 1077; 32; 1089;
   1084; 46; 32; 73; 78; 83; 84; 65; 76; 76; 95; 76; 69; 65; 78; 78; 46; 109;
   100].

(** The records of [logging] in [vector_store.py]. *)
Inductive store_event : Type :=
| UploadStart (count : nat) (index_name : str)
| DeletingIndex (index_path : str)
| AddFailed (i : nat) (e : exn)
| Progress (done total : nat)
| Building
| Built (index_path : str)
| Savings
| UploadFailed (e : exn)
| SearchFailed (e : exn).

Section VectorStore.
Context {B : Backend}.

(** The fields of a [LEANNStore]. *)
Record store : Type := Store {
  index_dir : str;
  builder_field : option builder;
  searcher_field : option searcher;
  current_index_name : option str
}.

(** A method reads and updates the object and the world, returns or
    raises, and emits log records. *)
Definition VM (A : Type) : Type :=
  store * world -> res A * (store * world) * list (level * store_event).

Definition vret {A} (a : A) : VM A := fun s => (Ok a, s, []).

Definition vraise {A} (e : exn) : VM A := fun s => (Raise e, s, []).

Definition vbind {A C} (m : VM A) (k : A -> VM C) : VM C :=
  fun s =>
    match m s with
    | (Ok a, s1, l1) =>
        match k a s1 with
        | (r, s2, l2) => (r, s2, l1 ++ l2)
        end
    | (Raise e, s1, l1) => (Raise e, s1, l1)
    end.

Definition vtry {A} (m : VM A) (handler : exn -> VM A) : VM A :=
  fun s =>
    match m s with
    | (Ok a, s1, l1) => (Ok a, s1, l1)
    | (Raise e, s1, l1) =>
        match handler e s1 with
        | (r, s2, l2) => (r, s2, l1 ++ l2)
        end
    end.

Definition vlog (lv : level) (ev : store_event) : VM unit :=
  fun s => (Ok tt, s, [(lv, ev)]).

(** A call into the library or the operating system. *)
Definition call {A} (op : world -> res A * world) : VM A :=
  fun s => (fst (op (snd s)), (fst s, snd (op (snd s))), []).

Definition self : VM store := fun s => (Ok (fst s), s, []).

Definition set_self (f : store -> store) : VM unit :=
  fun s => (Ok tt, (f (fst s), snd s), []).

(** [os.getenv(name, default)] *)
Definition os_getenv (name default : str) : VM str :=
  fun s =>
    (Ok (match getenv name (snd s) with Some v => v | None => default end),
     s, []).

Notation "x <~ m ;; k" := (vbind m (fun x => k))
  (at level 100, m at next level, right associativity).
Notation "m ;~ k" := (vbind m (fun _ => k))
  (at level 100, right associativity).

Fixpoint vfor_each {A} (body : A -> VM unit) (l : list A) : VM unit :=
  match l with
  | [] => vret tt
  | x :: l' => body x ;~ vfor_each body l'
  end.

(** [enumerate(l)] *)
Definition enumerate {A} (l : list A) : list (nat * A) :=
  combine (seq 0 (length l)) l.

(** [LEANNStore.__init__] *)
Definition LEANNStore_init (index_dir : str) (w : world) : res store * world :=
  if negb has_leann then (Raise (Exn (lit "ImportError") NO_LEANN), w)
  else
    match mkdir index_dir w with
    | (Ok _, w1) => (Ok (Store index_dir None None None), w1)
    | (Raise e, w1) => (Raise e, w1)
    end.

Definition get_vector_store (index_dir : str) (w : world)
  : res store * world :=
  LEANNStore_init index_dir w.

(** The body of the loop of [upload_chunks] for chunk [i]. *)
Definition add_chunk (total : nat) (b : builder) (ic : nat * chunk_obj)
  : VM unit :=
  let i := fst ic in
  let c := snd ic in
  let metadata := (meta_doc_id c, meta_tag c, meta_tags c) in
  vtry (call (add_text_metadata b (text c) metadata))
    (fun e =>
       vlog WARNING (AddFailed i e) ;~
       call (add_text b (text c))) ;~
  if ((i + 1) mod 100 =? 0)%nat then vlog INFO (Progress (i + 1) total)
  else vret tt.

Definition upload_chunks (chunks : list chunk_obj) (index_name : str)
  : VM unit :=
  vlog INFO (UploadStart (length chunks) index_name) ;~
  st <~ self ;;
  let index_path := joinpath (index_dir st) index_name in
  found <~ call (fun w => (Ok (index_exists index_path w), w)) ;;
  (if found then
     vlog INFO (DeletingIndex index_path) ;~
     call (rmtree index_path)
   else vret tt) ;~
  vtry
    (embedding_model <~
       os_getenv (lit "LEANN_EMBEDDING_MODEL") (lit "facebook/contriever") ;;
     backend <~ os_getenv (lit "LEANN_BACKEND") (lit "hnsw") ;;
     b <~ call (new_builder index_path embedding_model backend) ;;
     set_self (fun st =>
       Store (index_dir st) (Some b) (searcher_field st)
         (current_index_name st)) ;~
     vfor_each (add_chunk (length chunks) b) (enumerate chunks) ;~
     vlog INFO Building ;~
     call (build b) ;~
     vlog INFO (Built index_path) ;~
     vlog INFO Savings ;~
     set_self (fun st =>
       Store (index_dir st) (builder_field st) (searcher_field st)
         (Some index_name)))
    (fun e =>
       vlog ERROR (UploadFailed e) ;~
       vraise e).

(** [LEANNStore.search] *)
Definition search (query : str) (top_k : Z) : VM results :=
  st <~ self ;;
  match current_index_name st with
  | None => vraise (Exn (lit "ValueError") NOT_CREATED)
  | Some index_name =>
      let index_path := joinpath (index_dir st) index_name in
      found <~ call (fun w => (Ok (index_exists index_path w), w)) ;;
      if negb found then
        vraise (Exn (lit "ValueError") (NOT_FOUND ++ index_path))
      else
        vtry
          (s <~ match searcher_field st with
                | None =>
                    s <~ call (new_searcher index_path) ;;
                    set_self (fun st =>
                      Store (index_dir st) (builder_field st) (Some s)
                        (current_index_name st)) ;~
                    vret s
                | Some s => vret s
                end ;;
           call (searcher_search s query top_k))
          (fun e =>
             vlog ERROR (SearchFailed e) ;~
             vraise e)
  end.

(** The object and the world after uploads that all raised. *)
Inductive after_failed_uploads : store * world -> store * world -> Prop :=
| no_upload s : after_failed_uploads s s
| failed_upload s chunks index_name e s1 l s2 :
    upload_chunks chunks index_name s = (Raise e, s1, l) ->
    after_failed_uploads s1 s2 ->
    after_failed_uploads s s2.

(** A method meets a postcondition on the object before, the outcome and
    the object after. *)
Definition meets {A} (m : VM A) (Q : store -> res A -> store -> Prop) : Prop :=
  forall st w r st' w' l, m (st, w) = (r, (st', w'), l) -> Q st r st'.

(** The index directory, the cached searcher and the index name are as
    they were. *)
Definition same_index {A} (st : store) (r : res A) (st' : store) : Prop :=
  index_dir st' = index_dir st
  /\ searcher_field st' = searcher_field st
  /\ current_index_name st' = current_index_name st.

(** The same, and the method raised. *)
Definition same_index_raised {A} (st : store) (r : res A) (st' : store)
  : Prop :=
  same_index st r st' /\ exists e, r = Raise e.

(** The index is named when the method returns, and only then. *)
Definition named_on_return (index_name : str) (st : store) (r : res unit)
    (st' : store) : Prop :=
  index_dir st' = index_dir st
  /\ searcher_field st' = searcher_field st
  /\ current_index_name st'
     = match r with
       | Ok _ => Some index_name
       | Raise _ => current_index_name st
       end.

End VectorStore.

(* ===================================================================== *)
(** ** A small library, to run the vector store *)
(* ===================================================================== *)

Module ToyIndex.

(** The world is the list of index paths on disk.  A builder and a
    searcher are the path they were opened on; a search answers with the
    path of its searcher; a text that is empty is refused. *)
Definition refuse : exn := Exn (lit "ValueError") (lit "empty text").

Definition backend : Backend := {|
  world := list (list N);
  builder := list N;
  searcher := list N;
  results := list (list N);
  has_leann := true;
  getenv := fun _ _ => None;
  joinpath := fun dir name => dir ++ [47] ++ name;
  mkdir := fun _ w => (Ok tt, w);
  index_exists := fun p w => existsb (str_eqb p) w;
  rmtree := fun p w => (Ok tt, List.filter (fun q => negb (str_eqb p q)) w);
  new_builder := fun p _ _ w => (Ok p, w);
  add_text_metadata :=
    fun _ t _ w => if nonempty t then (Ok tt, w) else (Raise refuse, w);
  add_text :=
    fun _ t w => if nonempty t then (Ok tt, w) else (Raise refuse, w);
  build := fun b w => (Ok tt, b :: w);
  new_searcher := fun p w => (Ok p, w);
  searcher_search := fun s _ _ w => (Ok [s], w)
|}.

Definition a_chunk : chunk_obj :=
  Chunk (lit "Intro") (VStr (lit "a")) (VStr MISC) [] (lit "docs/a.md").

Definition empty_chunk : chunk_obj :=
  Chunk [] (VStr (lit "a")) (VStr MISC) [] (lit "docs/a.md").

(** A store that names the index "first", which is on disk. *)
Definition named_first : @store backend * @world backend :=
  (Store (lit "idx") None None (Some (lit "first")), [lit "idx/first"]).

End ToyIndex.

(* ===================================================================== *)
(** * Properties *)
(* ===================================================================== *)

(** ** Text *)

Lemma linebreak_isspace c : is_linebreak c = true -> isspace c = true.
Proof.
  unfold is_linebreak, isspace.
  rewrite !orb_true_iff, !andb_true_iff, !N.leb_le, !N.eqb_eq. lia.
Qed.

Lemma all_space_app a b : all_space (a ++ b) <-> all_space a /\ all_space b.
Proof. apply Forall_app. Qed.

Lemma all_space_newline : all_space newline.
Proof. repeat constructor. Qed.

Lemma ink_app a b : ink (a ++ b) = ink a ++ ink b.
Proof. apply List.filter_app. Qed.

Lemma ink_all_space s : all_space s -> ink s = [].
Proof.
  induction 1 as [|c s Hc _ IH]; [done|].
  unfold ink in *. simpl. by rewrite Hc.
Qed.

Lemma ink_nil_all_space s : ink s = [] -> all_space s.
Proof.
  induction s as [|c s IH]; [constructor|].
  unfold ink in *. simpl. destruct (isspace c) eqn:Hc; simpl; [|done].
  intros H. constructor; [done | by apply IH].
Qed.

Lemma lstrip_all_space s : all_space s -> lstrip s = [].
Proof. induction 1 as [|c s Hc _ IH]; simpl; [done|]. by rewrite Hc. Qed.

Lemma lstrip_nil_all_space s : lstrip s = [] -> all_space s.
Proof.
  induction s as [|c s IH]; [constructor|].
  simpl. destruct (isspace c) eqn:Hc; [|done].
  intros H. constructor; [done | by apply IH].
Qed.

(** [lstrip] cuts a whitespace prefix. *)
Lemma lstrip_split s : exists w, all_space w /\ s = w ++ lstrip s.
Proof.
  induction s as [|c s [w [Hw Hs]]].
  - exists []. split; [constructor|done].
  - simpl. destruct (isspace c) eqn:Hc.
    + exists (c :: w). split; [by constructor|]. simpl. by rewrite <- Hs.
    + exists []. split; [constructor|done].
Qed.

Lemma lstrip_app a b :
  lstrip (a ++ b) = match lstrip a with [] => lstrip b | _ :: _ => lstrip a ++ b end.
Proof.
  induction a as [|c a IH]; simpl; [by destruct (lstrip b)|].
  destruct (isspace c); [apply IH|done].
Qed.

Lemma lstrip_idem s : lstrip (lstrip s) = lstrip s.
Proof.
  induction s as [|c s IH]; simpl; [done|].
  destruct (isspace c) eqn:Hc; [done|]. simpl. by rewrite Hc.
Qed.

(** [rstrip] read from the left. *)
Lemma rstrip_cons c s :
  rstrip (c :: s) =
  match rstrip s with
  | [] => if isspace c then [] else [c]
  | _ :: _ => c :: rstrip s
  end.
Proof.
  unfold rstrip. simpl. rewrite lstrip_app.
  destruct (lstrip (rev s)) as [|d r] eqn:Hr.
  - simpl. by destruct (isspace c).
  - simpl. rewrite rev_app_distr. simpl.
    destruct (rev r ++ [d]) eqn:Hd; [by destruct (rev r)|done].
Qed.

Lemma rstrip_all_space s : all_space s -> rstrip s = [].
Proof.
  induction 1 as [|c s Hc _ IH]; [done|].
  rewrite rstrip_cons, IH. by rewrite Hc.
Qed.

Lemma rstrip_nil_all_space s : rstrip s = [] -> all_space s.
Proof.
  induction s as [|c s IH]; [constructor|].
  rewrite rstrip_cons. destruct (rstrip s) eqn:Hr; [|done].
  destruct (isspace c) eqn:Hc; [|done].
  intros _. constructor; [done | by apply IH].
Qed.

(** [rstrip] cuts a whitespace suffix. *)
Lemma rstrip_split s : exists w, all_space w /\ s = rstrip s ++ w.
Proof.
  induction s as [|c s [w [Hw Hs]]].
  - exists []. split; [constructor|done].
  - rewrite rstrip_cons. destruct (rstrip s) as [|d r] eqn:Hr.
    + simpl in Hs. subst w. destruct (isspace c) eqn:Hc.
      * exists (c :: s). split; [by constructor|done].
      * exists s. split; [done|done].
    + exists w. split; [done|]. simpl. by rewrite Hs at 1.
Qed.

Lemma rstrip_idem s : rstrip (rstrip s) = rstrip s.
Proof. unfold rstrip. by rewrite rev_involutive, lstrip_idem. Qed.

Lemma rstrip_head c s :
  isspace c = false -> exists r, rstrip (c :: s) = c :: r.
Proof.
  intros Hc. rewrite rstrip_cons, Hc.
  destruct (rstrip s); eauto.
Qed.

Lemma lstrip_cases s :
  lstrip s = [] \/ exists c r, lstrip s = c :: r /\ isspace c = false.
Proof.
  induction s as [|c s IH]; [by left|].
  simpl. destruct (isspace c) eqn:Hc; [done|]. right. eauto.
Qed.

Lemma strip_idem s : strip (strip s) = strip s.
Proof.
  unfold strip.
  destruct (lstrip_cases s) as [->|(c & r & -> & Hc)]; [done|].
  destruct (rstrip_head c r Hc) as [r' Hr'].
  rewrite Hr'. simpl. rewrite Hc. rewrite <- Hr'. apply rstrip_idem.
Qed.

Lemma strip_all_space s : all_space s -> strip s = [].
Proof. intros H. unfold strip. by rewrite lstrip_all_space. Qed.

Lemma strip_nil_all_space s : strip s = [] -> all_space s.
Proof.
  unfold strip. intros H.
  destruct (lstrip_split s) as (w & Hw & Hs).
  rewrite Hs. apply all_space_app. split; [done|].
  by apply rstrip_nil_all_space.
Qed.

(** [strip] cuts whitespace at both ends and nothing else. *)
Lemma strip_split s :
  exists w1 w2, all_space w1 /\ all_space w2 /\ s = w1 ++ strip s ++ w2.
Proof.
  destruct (lstrip_split s) as (w1 & Hw1 & Hs).
  destruct (rstrip_split (lstrip s)) as (w2 & Hw2 & Hr).
  exists w1, w2. repeat split; [done|done|].
  unfold strip. by rewrite <- Hr.
Qed.

Lemma ink_strip s : ink (strip s) = ink s.
Proof.
  destruct (strip_split s) as (w1 & w2 & H1 & H2 & Hs).
  rewrite Hs at 2. rewrite !ink_app, (ink_all_space w1), (ink_all_space w2) by done.
  by rewrite app_nil_r.
Qed.

Lemma strip_nonempty_ink s : nonempty (strip s) = nonempty (ink s).
Proof.
  destruct (strip s) eqn:Hs.
  - apply strip_nil_all_space in Hs. by rewrite ink_all_space.
  - destruct (ink s) eqn:Hi; [|done].
    apply ink_nil_all_space, strip_all_space in Hi. congruence.
Qed.

Lemma strip_app_space s w : all_space w -> strip (s ++ w) = strip s.
Proof.
  intros Hw. unfold strip. rewrite lstrip_app.
  destruct (lstrip s) as [|c r] eqn:Hs.
  - by rewrite (lstrip_all_space w).
  - unfold rstrip. rewrite rev_app_distr, lstrip_app.
    rewrite (lstrip_all_space (rev w)); [done|].
    by apply List.Forall_rev.
Qed.

Lemma has_ink s :
  (exists c, In c s /\ isspace c = false) <-> ink s <> [].
Proof.
  split.
  - intros (c & Hin & Hc) Hnil. apply ink_nil_all_space in Hnil.
    unfold all_space in Hnil. rewrite List.Forall_forall in Hnil.
    specialize (Hnil c Hin). congruence.
  - intros Hne. destruct (ink s) as [|c r] eqn:Hi; [done|].
    exists c.
    assert (In c (ink s)) as Hc by (rewrite Hi; by left).
    apply filter_In in Hc. destruct Hc as [Hin Hc].
    split; [done|]. by destruct (isspace c).
Qed.

Lemma ink_join l : ink (join newline l) = ink (concat l).
Proof.
  induction l as [|x l IH]; [done|].
  destruct l as [|y l]; [simpl; by rewrite app_nil_r|].
  change (join newline (x :: y :: l)) with (x ++ newline ++ join newline (y :: l)).
  change (concat (x :: y :: l)) with (x ++ concat (y :: l)).
  by rewrite !ink_app, IH.
Qed.

Lemma splitlines_cons_text c s :
  is_linebreak c = false ->
  splitlines (c :: s) =
  match splitlines s with [] => [[c]] | l :: ls => (c :: l) :: ls end.
Proof. intros H. simpl. by rewrite H. Qed.

Lemma splitlines_nil_inv s : splitlines s = [] -> s = [].
Proof.
  destruct s as [|c s]; [done|]. simpl.
  destruct (is_linebreak c); [done|]. by destruct (splitlines s).
Qed.

(** [splitlines] drops line boundaries, which are whitespace, and nothing
    else. *)
Lemma ink_splitlines s : ink (concat (splitlines s)) = ink s.
Proof.
  remember (length s) as n eqn:Hn.
  revert s Hn. induction (lt_wf n) as [n _ IH]. intros s Hn.
  destruct s as [|c s]; [done|].
  simpl in Hn. simpl splitlines.
  destruct (is_linebreak c) eqn:Hc.
  - assert (ink (c :: s) = ink s) as ->.
    { unfold ink. simpl. by rewrite (linebreak_isspace c Hc). }
    simpl concat.
    destruct (c =? CR); [|apply (IH (length s)); [lia|done]].
    destruct s as [|c2 s2]; [done|].
    destruct (c2 =? LF) eqn:Hc2; [|apply (IH (length (c2 :: s2))); [lia|done]].
    apply N.eqb_eq in Hc2. subst c2.
    replace (ink (LF :: s2)) with (ink s2) by done.
    apply (IH (length s2)); [simpl in Hn; lia|done].
  - pose proof (IH (length s) ltac:(lia) s eq_refl) as IHs.
    destruct (splitlines s) as [|l ls].
    + simpl in *. unfold ink in *. simpl. by rewrite <- IHs.
    + simpl in *. unfold ink in *. simpl. by rewrite <- IHs.
Qed.

Lemma ink_lines s : ink (join newline (splitlines s)) = ink s.
Proof. by rewrite ink_join, ink_splitlines. Qed.

(** With "\n" as the only line boundary, the lines joined by "\n" are the
    text, up to one final "\n". *)
Lemma join_splitlines_lf s :
  (forall c, In c s -> is_linebreak c = true -> c = LF) ->
  exists w, all_space w /\ s = join newline (splitlines s) ++ w.
Proof.
  induction s as [|c s IH]; intros Hlf.
  - exists []. split; [constructor|done].
  - destruct IH as (w & Hw & Hs).
    { intros d Hd. apply Hlf. by right. }
    simpl splitlines. destruct (is_linebreak c) eqn:Hc.
    + assert (c = LF) as -> by (apply Hlf; [by left|done]).
      change (LF =? CR) with false. cbv iota.
      destruct (splitlines s) as [|l ls] eqn:Hl.
      * apply splitlines_nil_inv in Hl. subst s.
        exists [LF]. split; [apply all_space_newline|done].
      * exists w. split; [done|].
        change (join newline ([] :: l :: ls)) with (LF :: join newline (l :: ls)).
        simpl. by rewrite Hs at 1.
    + destruct (splitlines s) as [|l ls] eqn:Hl.
      * apply splitlines_nil_inv in Hl. subst s.
        exists []. split; [constructor|done].
      * exists w. split; [done|].
        assert (join newline ((c :: l) :: ls) = c :: join newline (l :: ls)) as ->.
        { simpl. by destruct ls. }
        simpl. by rewrite Hs at 1.
Qed.

Lemma strip_lines_lf s :
  (forall c, In c s -> is_linebreak c = true -> c = LF) ->
  strip (join newline (splitlines s)) = strip s.
Proof.
  intros Hlf. destruct (join_splitlines_lf s Hlf) as (w & Hw & Hs).
  rewrite Hs at 2. by rewrite strip_app_space.
Qed.

(** ** The chunker *)

Arguments startswith : simpl never.

Lemma split_step_groups groups buf line :
  split_step (List.map flushed groups, buf) line =
  (List.map flushed (fst (group_step (groups, buf) line)),
   snd (group_step (groups, buf) line)).
Proof.
  unfold split_step, group_step.
  destruct (startswith heading_prefix line); simpl; [|done].
  destruct buf as [|b buf]; simpl; [done|].
  by rewrite List.map_app.
Qed.

Lemma split_loop_groups lines groups buf :
  fold_left split_step lines (List.map flushed groups, buf) =
  (List.map flushed (fst (fold_left group_step lines (groups, buf))),
   snd (fold_left group_step lines (groups, buf))).
Proof.
  revert groups buf. induction lines as [|line lines IH]; intros groups buf.
  - done.
  - cbn [fold_left]. rewrite split_step_groups.
    destruct (group_step (groups, buf) line) as [groups' buf'].
    apply IH.
Qed.

(** The chunks are the non-empty flushed groups of lines. *)
Lemma split_to_chunks_groups content :
  split_to_chunks content =
  List.filter nonempty (List.map flushed (line_groups (splitlines content))).
Proof.
  unfold split_to_chunks, line_groups.
  change (@nil (list N), @nil (list N)) with (List.map flushed [], @nil (list N)).
  rewrite split_loop_groups.
  destruct (fold_left group_step (splitlines content) ([], [])) as [groups buf].
  simpl. destruct buf; simpl; [done|]. by rewrite List.map_app.
Qed.

(** The groups partition the lines, in order. *)
Lemma group_loop_concat lines groups buf :
  concat (group_flush (fold_left group_step lines (groups, buf))) =
  concat groups ++ buf ++ lines.
Proof.
  revert groups buf. induction lines as [|line lines IH]; intros groups buf.
  - simpl. destruct buf; simpl; [by rewrite app_nil_r|].
    rewrite concat_app. simpl. by rewrite !app_nil_r.
  - cbn [fold_left]. unfold group_step at 2.
    destruct (startswith heading_prefix line && nonempty buf).
    + rewrite IH, concat_app. simpl. by rewrite app_nil_r, <- app_assoc.
    + rewrite IH. by rewrite <- app_assoc.
Qed.

Lemma line_groups_concat lines : concat (line_groups lines) = lines.
Proof. unfold line_groups. by rewrite group_loop_concat. Qed.

Lemma group_step_inv st line : group_inv st -> group_inv (group_step st line).
Proof.
  destruct st as [groups buf]. unfold group_inv, group_step. simpl.
  intros (Hbuf & Hne & Hhd).
  destruct (startswith heading_prefix line) eqn:Hline; simpl.
  - destruct buf as [|b buf]; simpl.
    + rewrite (Hbuf eq_refl) in *. split_and!; [done|done|constructor].
    + split_and!; [done| |].
      * apply Forall_app. split; [done|]. by repeat constructor.
      * destruct groups as [|g groups]; simpl in *.
        { by repeat constructor. }
        rewrite <- app_assoc. apply Forall_app in Hhd as [H1 H2].
        apply Forall_app. split; [done|]. apply Forall_app. split; [done|].
        by repeat constructor.
  - split_and!; [by destruct buf|done|].
    destruct groups as [|g groups]; simpl in *; [constructor|].
    apply Forall_app in Hhd as [H1 H2]. apply Forall_app. split; [done|].
    inversion H2 as [|? ? Hb _]; subst. repeat constructor.
    by destruct buf.
Qed.

Lemma group_loop_inv lines st :
  group_inv st -> group_inv (fold_left group_step lines st).
Proof.
  revert st. induction lines as [|line lines IH]; intros st Hst; [done|].
  simpl. by apply IH, group_step_inv.
Qed.

Lemma line_groups_inv lines :
  Forall (fun g => g <> []) (line_groups lines)
  /\ Forall headed (tl (line_groups lines)).
Proof.
  unfold line_groups.
  assert (group_inv (fold_left group_step lines ([], []))) as Hinv.
  { apply group_loop_inv. split_and!; simpl; [done|constructor|constructor]. }
  destruct (fold_left group_step lines ([], [])) as [groups buf].
  destruct Hinv as (Hbuf & Hne & Hhd). simpl in *.
  destruct buf as [|b buf]; simpl.
  - rewrite (Hbuf eq_refl). split; constructor.
  - split; [|done]. apply Forall_app. split; [done|]. by repeat constructor.
Qed.

(** A body that opens with a break marker: so does its first line. *)
Lemma startswith_heading_inv s :
  startswith heading_prefix s = true -> exists t, s = 35 :: 35 :: 32 :: t.
Proof.
  unfold heading_prefix.
  destruct s as [|a [|b [|c t]]]; cbv [startswith];
    rewrite ?andb_false_r; try done.
  intros H. apply andb_true_iff in H as [Ha H].
  apply andb_true_iff in H as [Hb H]. apply andb_true_iff in H as [Hc _].
  apply N.eqb_eq in Ha, Hb, Hc. subst. eauto.
Qed.

Lemma first_line_headed content :
  startswith heading_prefix content = true ->
  exists line lines,
    splitlines content = line :: lines /\ startswith heading_prefix line = true.
Proof.
  intros H. apply startswith_heading_inv in H as [t ->].
  rewrite !splitlines_cons_text by done.
  destruct (splitlines t) as [|l ls]; eauto.
Qed.

Lemma line_groups_all_headed line lines :
  startswith heading_prefix line = true ->
  Forall headed (line_groups (line :: lines)).
Proof.
  intros Hline.
  pose proof (line_groups_concat (line :: lines)) as Hcat.
  destruct (line_groups_inv (line :: lines)) as [Hne Hhd].
  destruct (line_groups (line :: lines)) as [|g gs]; [done|].
  constructor; [|done].
  inversion Hne as [|? ? Hg _]; subst.
  destruct g as [|l g]; [done|]. simpl in Hcat. by injection Hcat as -> _.
Qed.

(** Trimming a group that opens with a break marker keeps the marker, or
    leaves the bare "##". *)
Lemma flushed_headed g : headed g -> opens_with_heading (flushed g).
Proof.
  destruct g as [|line g]; [done|]. simpl. intros Hline.
  apply startswith_heading_inv in Hline as [t ->].
  unfold flushed, opens_with_heading.
  assert (exists t', join newline ((35 :: 35 :: 32 :: t) :: g) = 35 :: 35 :: 32 :: t')
    as [t' ->] by (destruct g; simpl; eauto).
  unfold strip. simpl lstrip.
  rewrite (rstrip_cons 35), (rstrip_cons 35), (rstrip_cons 32).
  destruct (rstrip t'); simpl; auto.
Qed.

Lemma Forall_tl_filter {A} (P : A -> Prop) (f : A -> bool) l :
  Forall P (tl l) -> Forall P (tl (List.filter f l)).
Proof.
  destruct l as [|x l]; simpl; [done|]. intros H.
  assert (Forall P (List.filter f l)) as Hf.
  { apply List.Forall_forall. intros y Hy. apply filter_In in Hy as [Hy _].
    rewrite List.Forall_forall in H. by apply H. }
  destruct (f x); simpl; [done|].
  destruct (List.filter f l); simpl; [constructor|]. by inversion Hf.
Qed.

Lemma Forall_filter_keep {A} (P : A -> Prop) (f : A -> bool) l :
  Forall P l -> Forall P (List.filter f l).
Proof.
  rewrite !List.Forall_forall. intros H y Hy.
  apply filter_In in Hy as [Hy _]. by apply H.
Qed.

(** Without a break-marker line the loop only fills the buffer. *)
Lemma split_loop_no_heading lines chunks buf :
  Forall (fun line => startswith heading_prefix line = false) lines ->
  fold_left split_step lines (chunks, buf) = (chunks, buf ++ lines).
Proof.
  intros H. revert buf. induction H as [|line lines Hline _ IH]; intros buf.
  - by rewrite app_nil_r.
  - simpl. rewrite Hline, IH. by rewrite <- app_assoc.
Qed.

Lemma split_no_heading content :
  Forall (fun line => startswith heading_prefix line = false)
    (splitlines content) ->
  split_to_chunks content =
  if nonempty (ink content) then [strip (join newline (splitlines content))]
  else [].
Proof.
  intros H. unfold split_to_chunks. rewrite split_loop_no_heading by done.
  simpl. rewrite <- (ink_lines content), <- strip_nonempty_ink.
  destruct (splitlines content) as [|l ls] eqn:Hl; [done|].
  simpl List.filter. reflexivity.
Qed.

Lemma join_cons (sep : str) t ts :
  join sep (t :: ts) =
  t ++ match ts with [] => [] | _ :: _ => sep ++ join sep ts end.
Proof. destruct ts; simpl; [by rewrite app_nil_r|done]. Qed.

Lemma join_app (sep : str) (a b : list str) :
  a <> [] -> b <> [] -> join sep (a ++ b) = join sep a ++ sep ++ join sep b.
Proof.
  intros Ha Hb. induction a as [|x a IH]; [done|].
  destruct a as [|y a].
  - simpl app. rewrite join_cons. by destruct b.
  - change ((x :: y :: a) ++ b) with (x :: (y :: a) ++ b).
    rewrite (join_cons sep x ((y :: a) ++ b)), IH by done.
    rewrite (join_cons sep x (y :: a)). simpl. by rewrite <- !app_assoc.
Qed.

Lemma join_concat (groups : list (list str)) :
  Forall (fun g => g <> []) groups ->
  join newline (concat groups) = join newline (List.map (join newline) groups).
Proof.
  induction 1 as [|g groups Hg Hne IH]; [done|].
  simpl concat. simpl List.map. rewrite join_cons.
  destruct groups as [|g' groups]; [simpl; by rewrite !app_nil_r|].
  rewrite join_app; [by rewrite IH|done|].
  inversion Hne as [|? ? Hg' _]; subst. simpl. by destruct g'.
Qed.

Lemma ink_interleave w0 cws :
  all_space w0 -> Forall (fun cw => all_space (snd cw)) cws ->
  ink (interleave w0 cws) = ink (concat (List.map fst cws)).
Proof.
  intros Hw0 Hcws. unfold interleave. rewrite ink_app, (ink_all_space w0) by done.
  simpl. induction Hcws as [|[c w] cws Hw _ IH]; [done|].
  cbn [List.map concat fst snd] in *.
  by rewrite !ink_app, (ink_all_space w), IH, app_nil_r.
Qed.

(** Texts joined by "\n" are their trimmed forms, in order, with
    whitespace before, between and after; a text that trims to nothing is
    part of that whitespace. *)
Lemma join_strip_interleave (ts : list str) :
  exists w0 cws,
    List.filter nonempty (List.map strip ts) = List.map fst cws
    /\ all_space w0
    /\ Forall (fun cw => all_space (snd cw)) cws
    /\ join newline ts = interleave w0 cws.
Proof.
  induction ts as [|t ts (w0 & cws & Hf & Hw0 & Hcws & Hj)].
  - exists [], []. split_and!; [done|constructor|constructor|done].
  - rewrite join_cons.
    assert (exists pre, all_space pre /\
              match ts with [] => [] | _ :: _ => newline ++ join newline ts end
              = pre ++ interleave w0 cws) as (pre & Hpre & ->).
    { destruct ts as [|t' ts].
      - exists []. split; [constructor|]. by rewrite <- Hj.
      - exists newline. split; [apply all_space_newline|]. by rewrite Hj. }
    destruct (strip_split t) as (w1 & w2 & Hw1 & Hw2 & Ht).
    simpl List.map. simpl List.filter.
    destruct (strip t) as [|c r] eqn:Hs.
    + exists (t ++ pre ++ w0), cws. simpl. split_and!; [done| |done|].
      * rewrite !all_space_app. split_and!; [|done|done].
        by apply strip_nil_all_space.
      * unfold interleave. by rewrite <- !app_assoc.
    + exists w1, ((c :: r, w2 ++ pre ++ w0) :: cws). simpl.
      split_and!; [by rewrite Hf|done| |].
      * constructor; [|done]. simpl. by rewrite !all_space_app.
      * unfold interleave. simpl. rewrite Ht at 1.
        by rewrite <- !app_assoc.
Qed.

(** ** The tagger *)

Lemma tag_loop (chunks : list str) (tags results : list pyval) :
  fold_left
    (fun results (ch : str) =>
       results ++ [match tags with t :: _ => t | [] => VStr MISC end])
    chunks results
  = results
    ++ repeat (match tags with t :: _ => t | [] => VStr MISC end) (length chunks).
Proof.
  revert results. induction chunks as [|ch chunks IH]; intros results.
  - by rewrite app_nil_r.
  - simpl. rewrite IH. by rewrite <- app_assoc.
Qed.

Lemma tag_chunks_repeat chunks tags :
  tag_chunks chunks tags =
  repeat (match tags with t :: _ => t | [] => VStr MISC end) (length chunks).
Proof. unfold tag_chunks. by rewrite tag_loop. Qed.

(** C6. [tag_chunks] returns one tag per chunk; every tag is the first
    element of the tag list, or "Misc" when the tag list is empty; the
    chunk texts play no part. *)
Theorem tag_chunks_uniform (chunks : list str) (tags : list pyval) :
  length (tag_chunks chunks tags) = length chunks
  /\ (forall t rest, tags = t :: rest ->
        Forall (fun x => x = t) (tag_chunks chunks tags))
  /\ (tags = [] -> Forall (fun x => x = VStr MISC) (tag_chunks chunks tags))
  /\ (forall chunks' : list str,
        length chunks' = length chunks ->
        tag_chunks chunks' tags = tag_chunks chunks tags).
Proof.
  rewrite tag_chunks_repeat. split_and!.
  - apply repeat_length.
  - intros t rest ->. apply List.Forall_forall. intros x Hx.
    by apply repeat_spec in Hx.
  - intros ->. apply List.Forall_forall. intros x Hx.
    by apply repeat_spec in Hx.
  - intros chunks' Hlen. by rewrite tag_chunks_repeat, Hlen.
Qed.

(** ** Rejoining the chunks *)

(** The chunks, with the whitespace trimmed around them put back, are the
    lines of the body joined by "\n". *)
Lemma split_interleave content :
  exists w0 cws,
    split_to_chunks content = List.map fst cws
    /\ all_space w0
    /\ Forall (fun cw => all_space (snd cw)) cws
    /\ join newline (splitlines content) = interleave w0 cws.
Proof.
  destruct (join_strip_interleave
              (List.map (join newline) (line_groups (splitlines content))))
    as (w0 & cws & Hf & Hw0 & Hcws & Hj).
  exists w0, cws. split_and!; [|done|done|].
  - rewrite split_to_chunks_groups, <- Hf. by rewrite List.map_map.
  - rewrite <- Hj, <- join_concat, line_groups_concat; [done|].
    apply line_groups_inv.
Qed.

(** No character other than whitespace is lost, added or moved. *)
Lemma split_keeps_ink content :
  ink (concat (split_to_chunks content)) = ink content.
Proof.
  destruct (split_interleave content) as (w0 & cws & Hs & Hw0 & Hcws & Hj).
  by rewrite Hs, <- (ink_interleave w0 cws Hw0 Hcws), <- Hj, ink_lines.
Qed.

(** ** The chunker: the claims *)

(** C10, as stated, fails: the chunk of an empty heading that ends the
    body is trimmed to "##", which does not begin with "## ". *)
Lemma split_trailing_empty_heading :
  split_to_chunks (lit "a
## ") = [lit "a"; lit "##"]
  /\ ~ Forall (fun ch => startswith heading_prefix ch = true)
         (tl (split_to_chunks (lit "a
## "))).
Proof.
  split; [by vm_compute|].
  intros H. vm_compute in H. inversion H as [|? ? Hch _]. discriminate Hch.
Qed.

(** C10, amended. Every chunk is non-empty and equal to its own trimmed
    form, and every chunk except possibly the first opens with its
    heading: it begins with "## ", or it is the bare "##". *)
Theorem split_chunks_trimmed_headed (content : str) :
  Forall (fun ch => ch <> [] /\ strip ch = ch) (split_to_chunks content)
  /\ Forall opens_with_heading (tl (split_to_chunks content)).
Proof.
  rewrite split_to_chunks_groups. split.
  - apply List.Forall_forall. intros ch Hch.
    apply filter_In in Hch as [Hch Hne].
    apply in_map_iff in Hch as (g & <- & _).
    split; [by destruct (flushed g)|apply strip_idem].
  - apply Forall_tl_filter.
    destruct (line_groups_inv (splitlines content)) as [_ Hhd].
    destruct (line_groups (splitlines content)) as [|g gs]; [constructor|].
    simpl in *. apply List.Forall_forall. intros ch Hch.
    apply in_map_iff in Hch as (g' & <- & Hg').
    rewrite List.Forall_forall in Hhd. by apply flushed_headed, Hhd.
Qed.

(** C5, as stated, fails: a body without a break-marker line whose two
    lines are separated by "\r\n" gives one chunk, and that chunk is not
    the trimmed body: the line boundary has become "\n". *)
Lemma crlf_body_is_not_returned_whole :
  Forall (fun line => startswith heading_prefix line = false)
    (splitlines [97; 13; 10; 98])
  /\ strip [97; 13; 10; 98] = [97; 13; 10; 98]
  /\ split_to_chunks [97; 13; 10; 98] = [[97; 10; 98]]
  /\ split_to_chunks [97; 13; 10; 98] <> [strip [97; 13; 10; 98]].
Proof.
  split_and!; [|by vm_compute|by vm_compute|by vm_compute].
  vm_compute. by repeat constructor.
Qed.

(** C5, amended. A body without a break-marker line gives exactly one
    chunk, its lines joined by "\n" and trimmed (the trimmed body itself
    when "\n" is its only line boundary), if it holds a character that is
    not whitespace, and no chunk if it is empty or whitespace only.  A
    body that begins with a break marker gives no preamble chunk: every
    chunk opens with its heading. *)
Theorem split_heading_edge_cases (content : str) :
  (Forall (fun line => startswith heading_prefix line = false)
     (splitlines content) ->
   ((exists c, In c content /\ isspace c = false) ->
    split_to_chunks content = [strip (join newline (splitlines content))]
    /\ ((forall c, In c content -> is_linebreak c = true -> c = LF) ->
        split_to_chunks content = [strip content]))
   /\ (all_space content -> split_to_chunks content = []))
  /\ (startswith heading_prefix content = true ->
      Forall opens_with_heading (split_to_chunks content)
      /\ exists ch chunks, split_to_chunks content = ch :: chunks).
Proof.
  split.
  - intros Hno. rewrite (split_no_heading content Hno). split.
    + intros Hink. apply has_ink in Hink.
      destruct (ink content); [done|]. simpl. split; [done|].
      intros Hlf. by rewrite strip_lines_lf.
    + intros Hsp. by rewrite ink_all_space.
  - intros Hhead.
    destruct (first_line_headed content Hhead) as (line & lines & Hl & Hline).
    rewrite split_to_chunks_groups, Hl. split.
    + apply Forall_filter_keep, List.Forall_forall. intros ch Hch.
      apply in_map_iff in Hch as (g & <- & Hg).
      pose proof (line_groups_all_headed line lines Hline) as Hall.
      rewrite List.Forall_forall in Hall. by apply flushed_headed, Hall.
    + rewrite <- Hl, <- split_to_chunks_groups.
      destruct (split_to_chunks content) as [|ch chunks] eqn:Hs; [|eauto].
      exfalso. apply startswith_heading_inv in Hhead as [t ->].
      pose proof (split_keeps_ink (35 :: 35 :: 32 :: t)) as Hi.
      rewrite Hs in Hi. discriminate Hi.
Qed.


(** C4, as stated, fails: the one chunk of "a<FF>b" is "a\nb", which is no
    span of the body; whatever is put before, between and after the
    chunks, they do not give the body back. *)
Lemma form_feed_is_not_restored :
  split_to_chunks [97; 12; 98] = [[97; 10; 98]]
  /\ ~ exists w0 cws w,
        split_to_chunks [97; 12; 98] = List.map fst cws
        /\ [97; 12; 98] = interleave w0 cws ++ w.
Proof.
  split; [by vm_compute|].
  intros (w0 & cws & w & Hs & Hbody).
  assert (In 10 ([97; 12; 98] : str)) as Hin.
  { rewrite Hbody. unfold interleave.
    destruct cws as [|[c w1] cws]; [discriminate Hs|].
    injection Hs as Hc _. simpl.
    apply in_or_app. left. apply in_or_app. right.
    apply in_or_app. left. apply in_or_app. left.
    rewrite <- Hc. right. by left. }
  vm_compute in Hin. by destruct Hin as [?|[?|[?|[]]]].
Qed.

(** C4, amended. The chunks are the trimmed, non-empty joins of
    consecutive groups of the body's lines, the groups cover the lines in
    order, and joining the chunks with whitespace put back before, between
    and after them gives the lines joined by "\n": only whitespace is
    lost, and every line boundary has become "\n".  That text is
    the body itself, up to a final "\n", when "\n" is the body's only line
    boundary; in every case the body and the chunks hold the same
    characters other than whitespace, in the same order. *)
Theorem split_rejoin (content : str) :
  exists (groups : list (list str)) (w0 : str) (cws : list (str * str)),
    concat groups = splitlines content
    /\ split_to_chunks content =
       List.filter nonempty
         (List.map (fun g => strip (join newline g)) groups)
    /\ split_to_chunks content = List.map fst cws
    /\ all_space w0
    /\ Forall (fun cw => all_space (snd cw)) cws
    /\ join newline (splitlines content) = interleave w0 cws
    /\ ((forall c, In c content -> is_linebreak c = true -> c = LF) ->
        exists w, all_space w /\ content = interleave w0 cws ++ w)
    /\ ink (concat (split_to_chunks content)) = ink content.
Proof.
  destruct (split_interleave content) as (w0 & cws & Hs & Hw0 & Hcws & Hj).
  exists (line_groups (splitlines content)), w0, cws.
  split_and!; try done.
  - apply line_groups_concat.
  - apply split_to_chunks_groups.
  - intros Hlf. rewrite <- Hj. by apply join_splitlines_lf.
  - apply split_keeps_ink.
Qed.

(** ** Paths *)

(** A sidecar is never a Markdown file. *)
Lemma yaml_not_md f g : is_md f -> with_suffix g YAML_EXT <> f.
Proof.
  intros [base Hf] Heq. rewrite <- Heq in Hf. simpl in Hf.
  apply (f_equal (@rev N)) in Hf. rewrite !rev_app_distr in Hf.
  discriminate Hf.
Qed.

(** The two sidecar names of any two files differ. *)
Lemma yaml_not_yml f g : with_suffix g YAML_EXT <> with_suffix f YML_EXT.
Proof.
  intros Heq. apply (f_equal snd) in Heq. simpl in Heq.
  apply (f_equal (@rev N)) in Heq. rewrite !rev_app_distr in Heq.
  discriminate Heq.
Qed.


(** ** The small codec round-trips *)

Lemma pyval_nested_ind (P : pyval -> Prop) :
  P VNone ->
  (forall b, P (VBool b)) ->
  (forall z, P (VInt z)) ->
  (forall s, P (VStr s)) ->
  (forall l, Forall P l -> P (VList l)) ->
  (forall m, Forall (fun kv => P (fst kv) /\ P (snd kv)) m -> P (VDict m)) ->
  forall v, P v.
Proof.
  intros HN HB HI HS HL HD.
  fix IH 1. intros [| b | z | s | l | m].
  - exact HN.
  - apply HB.
  - apply HI.
  - apply HS.
  - apply HL. induction l as [|x l IHl]; constructor; [apply IH|exact IHl].
  - apply HD. induction m as [|[k v] m IHm]; constructor;
      [split; apply IH|exact IHm].
Qed.

Lemma toy_of_to_tree v : Toy.of_tree (Toy.to_tree v) = v.
Proof.
  induction v as [| b | z | s | l IHl | m IHm] using pyval_nested_ind;
    try done.
  - simpl. f_equal. rewrite List.map_map.
    induction IHl as [|x l Hx _ IH]; [done|]. simpl. by rewrite Hx, IH.
  - simpl. f_equal. rewrite List.map_map.
    induction IHm as [|[k v] m [Hk Hv] _ IH]; [done|].
    simpl in *. by rewrite Hk, Hv, IH.
Qed.

Lemma toy_undigits_digits p : Toy.undigits (Toy.digits p) = p.
Proof. induction p as [p IH|p IH|]; simpl; by rewrite ?IH. Qed.

Lemma toy_load_dump v : Toy.toy_load (Toy.toy_dump v) = Ok v.
Proof.
  unfold Toy.toy_load, Toy.toy_dump.
  by rewrite toy_undigits_digits, decode_encode, toy_of_to_tree.
Qed.

Lemma toy_round_trips : round_trips Toy.codec.
Proof. intros doc_id tags. apply toy_load_dump. Qed.

(** ** Running the effects *)

Section Runs.
Context {Y : YamlCodec}.

Lemma fsys_eq (a b : fsys) :
  files a = files b -> readonly a = readonly b -> refused a = refused b ->
  a = b.
Proof. destruct a, b. simpl. by intros -> -> ->. Qed.

Lemma bind_run {A B} (m : M A) (k : A -> M B) fs a fs1 l1 r fs2 l2 :
  m fs = (Ok a, fs1, l1) -> k a fs1 = (r, fs2, l2) ->
  bind m k fs = (r, fs2, l1 ++ l2).
Proof. intros H1 H2. unfold bind. by rewrite H1, H2. Qed.

Lemma bind_raise {A B} (m : M A) (k : A -> M B) fs e fs1 l1 :
  m fs = (Raise e, fs1, l1) -> bind m k fs = (Raise e, fs1, l1).
Proof. intros H1. unfold bind. by rewrite H1. Qed.

Lemma found_true (fm : gmap (list N * list N) node) p n :
  fm !! p = Some n -> bool_decide (is_Some (fm !! p)) = true.
Proof. intros H. apply bool_decide_eq_true_2. by rewrite H. Qed.

Lemma found_false (fm : gmap (list N * list N) node) p :
  fm !! p = None -> bool_decide (is_Some (fm !! p)) = false.
Proof.
  intros H. apply bool_decide_eq_false_2. rewrite H. by intros [x Hx].
Qed.

(** A path that names a node, or that can be written, is looked at without
    error. *)
Lemma stat_error_found fs p n :
  files fs !! p = Some n -> stat_error fs p = None.
Proof. intros H. unfold stat_error. by rewrite H. Qed.

Lemma stat_error_writable fs p :
  p ∉ readonly fs -> stat_error fs p = None.
Proof.
  intros H. unfold stat_error. destruct (files fs !! p); [done|].
  by rewrite bool_decide_eq_false_2.
Qed.

Lemma stat_error_absent fs p e :
  stat_error fs p = Some e -> files fs !! p = None /\ p ∈ readonly fs.
Proof.
  unfold stat_error. destruct (files fs !! p); [done|].
  destruct (bool_decide (p ∈ readonly fs)) eqn:Hro; [|done].
  apply bool_decide_eq_true in Hro. done.
Qed.

Lemma exists_found fs p n :
  files fs !! p = Some n -> path_exists p fs = (Ok true, fs, []).
Proof.
  intros H. unfold path_exists.
  by rewrite (stat_error_found _ _ _ H), (found_true _ _ _ H).
Qed.

Lemma exists_absent fs p :
  files fs !! p = None -> stat_error fs p = None ->
  path_exists p fs = (Ok false, fs, []).
Proof.
  intros H Hs. unfold path_exists. by rewrite Hs, (found_false _ _ H).
Qed.

Lemma exists_false_inv fs p :
  path_exists p fs = (Ok false, fs, []) ->
  files fs !! p = None /\ stat_error fs p = None.
Proof.
  unfold path_exists. destruct (stat_error fs p); [done|].
  intros [= H]. apply bool_decide_eq_false in H.
  by apply eq_None_not_Some in H.
Qed.

Lemma exists_refused fs p e :
  stat_error fs p = Some e -> path_exists p fs = (Raise e, fs, []).
Proof. intros Hs. unfold path_exists. by rewrite Hs. Qed.


(** The loader's [try] block never raises and leaves the store alone. *)
Lemma load_sidecar_run p fs n :
  files fs !! p = Some n ->
  exists l, load_sidecar p fs = (Ok (parsed_or_empty n), fs, l).
Proof.
  intros Hn. unfold load_sidecar, try_except, bind, read_text, lift, ret, logger.
  rewrite Hn. destruct n as [text|e]; simpl.
  - destruct (safe_load text) as [v|e]; simpl; eauto.
  - eauto.
Qed.

(** The loader leaves the store alone; it raises only what a probe
    raises. *)
Lemma load_yaml_metadata_run f fs :
  exists l, load_yaml_metadata f fs = (loaded fs f, fs, l).
Proof.
  unfold load_yaml_metadata, loaded.
  destruct (files fs !! with_suffix f YAML_EXT) as [n|] eqn:H1.
  - destruct (load_sidecar_run _ fs n H1) as [l Hl]. eexists.
    eapply bind_run; [by eapply exists_found|]. exact Hl.
  - destruct (stat_error fs (with_suffix f YAML_EXT)) as [e|] eqn:S1.
    { eexists. apply bind_raise. by apply exists_refused. }
    destruct (files fs !! with_suffix f YML_EXT) as [n|] eqn:H2.
    + destruct (load_sidecar_run _ fs n H2) as [l Hl]. eexists.
      eapply bind_run; [by apply exists_absent|].
      eapply bind_run; [by eapply exists_found|]. exact Hl.
    + destruct (stat_error fs (with_suffix f YML_EXT)) as [e|] eqn:S2.
      * eexists. eapply bind_run; [by apply exists_absent|].
        apply bind_raise. by apply exists_refused.
      * eexists. eapply bind_run; [by apply exists_absent|].
        eapply bind_run; [by apply exists_absent|]. done.
Qed.

(** The three ways [generate_yaml_metadata] ends; each emits one record. *)
Lemma generate_run f doc_id tags overwrite fs :
  stat_error fs (with_suffix f YAML_EXT) = None ->
  generate_yaml_metadata f doc_id tags overwrite fs =
  if bool_decide (is_Some (files fs !! with_suffix f YAML_EXT)) && negb overwrite
  then
    (Ok (with_suffix f YAML_EXT), fs,
     [(DEBUG, SidecarKept (with_suffix f YAML_EXT))])
  else if bool_decide (with_suffix f YAML_EXT ∈ readonly fs) then
    (Raise (not_writable (with_suffix f YAML_EXT)), fs,
     [(ERROR, SidecarFailed (with_suffix f YAML_EXT)
                (not_writable (with_suffix f YAML_EXT)))])
  else
    (Ok (with_suffix f YAML_EXT),
     with_sidecar fs (with_suffix f YAML_EXT) (dump (descriptor doc_id tags)),
     [(INFO, SidecarCreated (with_suffix f YAML_EXT))]).
Proof.
  intros Hs. unfold generate_yaml_metadata.
  unfold bind at 1. unfold path_exists at 1. rewrite Hs.
  destruct (bool_decide (is_Some (files fs !! with_suffix f YAML_EXT))
            && negb overwrite); [done|].
  assert ((if nonempty tags then tags else []) = tags) as -> by (by destruct tags).
  unfold try_except, bind, write_text, logger, ret, raise. rewrite Hs.
  by destruct (bool_decide (with_suffix f YAML_EXT ∈ readonly fs)).
Qed.

(** A refused probe ends the call before anything is written or logged. *)
Lemma generate_refused f doc_id tags overwrite fs e :
  stat_error fs (with_suffix f YAML_EXT) = Some e ->
  generate_yaml_metadata f doc_id tags overwrite fs = (Raise e, fs, []).
Proof.
  intros Hs. unfold generate_yaml_metadata.
  apply bind_raise. by apply exists_refused.
Qed.

Lemma code_tags_spec m headers tfm :
  tfm = match dict_lookup m TAGS with Some x => x | None => VList [] end ->
  (if truthy tfm then match tfm with VList l => l | _ => [tfm] end
   else List.map VStr headers)
  = spec_tags m headers.
Proof.
  intros ->. unfold spec_tags. destruct (dict_lookup m TAGS) as [v|]; [|done].
  destruct v as [| b | z | s | l | d]; simpl; try done.
  by destruct l.
Qed.

(** A written sidecar is kept: the flag is true only when asked for, or
    when there is no sidecar. *)
Lemma should_generate_write found ow stored doc_id tfm headers :
  should_generate found ow stored doc_id tfm headers && (negb found || ow)
  = negb found || ow.
Proof.
  unfold should_generate.
  destruct found, ow; simpl; rewrite ?andb_false_r, ?orb_true_r; done.
Qed.

Lemma reconcile_run ow f m headers fs :
  reconcile ow f (VDict m)
    (match dict_lookup m TAGS with Some x => x | None => VList [] end)
    headers fs
  = (Ok (spec_reconciled ow f m headers), fs, []).
Proof.
  unfold reconcile, spec_reconciled. destruct ow; [done|].
  unfold bind, lift, py_get, ret. cbn [fst snd app].
  by rewrite (code_tags_spec m headers _ eq_refl).
Qed.

(** The sidecar step writes exactly when automatic sidecars are on and
    there is no sidecar or overwriting is asked for. *)
Lemma sidecar_step_run auto ow f m tfm headers doc_id tags fs :
  stat_error fs (with_suffix f YAML_EXT) = None ->
  exists l,
    sidecar_step auto ow f (VDict m) tfm headers doc_id tags fs =
    if auto
       && (negb (bool_decide (is_Some (files fs !! with_suffix f YAML_EXT)))
           || ow)
    then
      if bool_decide (with_suffix f YAML_EXT ∈ readonly fs)
      then (Raise (not_writable (with_suffix f YAML_EXT)), fs, l)
      else (Ok tt,
            with_sidecar fs (with_suffix f YAML_EXT)
              (dump (descriptor doc_id tags)), l)
    else (Ok tt, fs, l).
Proof.
  intros Hs. unfold sidecar_step. destruct auto; [|by exists []].
  unfold bind at 1. unfold path_exists at 1. rewrite Hs.
  unfold bind at 1. unfold lift at 1, py_get at 1.
  set (stored := match dict_lookup m DOC_ID with Some x => x | None => VNone end).
  clearbody stored.
  pose proof (should_generate_write
                (bool_decide (is_Some (files fs !! with_suffix f YAML_EXT)))
                ow stored doc_id tfm headers) as Hw.
  destruct (should_generate _ ow stored doc_id tfm headers) eqn:Hsg.
  - unfold bind at 1. unfold path_exists at 1. rewrite Hs.
    unfold bind at 1. rewrite (generate_run _ _ _ _ _ Hs).
    destruct (bool_decide (is_Some (files fs !! with_suffix f YAML_EXT)));
      destruct ow; simpl;
      destruct (bool_decide (with_suffix f YAML_EXT ∈ readonly fs));
      simpl; eauto.
  - rewrite andb_false_l in Hw. rewrite <- Hw. simpl. eauto.
Qed.

(** When the loader answers, the ".yaml" probe was answered. *)
Lemma loaded_probe fs f v :
  loaded fs f = Ok v -> stat_error fs (with_suffix f YAML_EXT) = None.
Proof.
  unfold loaded.
  destruct (files fs !! with_suffix f YAML_EXT) as [n|] eqn:H1.
  - intros _. by eapply stat_error_found.
  - by destruct (stat_error fs (with_suffix f YAML_EXT)).
Qed.

(** How the processing of one file ends, read off the store. *)
Lemma process_file_run auto ow f fs :
  exists l,
    process_file auto ow f fs =
    match files fs !! f with
    | None =>
        (Raise (match stat_error fs f with
                | Some e => e
                | None => file_not_found f
                end), fs, l)
    | Some (Broken e) => (Raise e, fs, l)
    | Some (File content) =>
        match loaded fs f with
        | Raise e => (Raise e, fs, l)
        | Ok (VDict m) =>
            let dt := spec_reconciled ow f m (parse_all_headers content) in
            let out := produced f content (fst dt) (snd dt) in
            if auto
               && (negb (bool_decide
                           (is_Some (files fs !! with_suffix f YAML_EXT)))
                   || ow)
            then
              if bool_decide (with_suffix f YAML_EXT ∈ readonly fs)
              then (Raise (not_writable (with_suffix f YAML_EXT)), fs, l)
              else (Ok out,
                    with_sidecar fs (with_suffix f YAML_EXT)
                      (dump (descriptor (fst dt) (snd dt))), l)
            else (Ok out, fs, l)
        | Ok v => (Raise (attribute_error v (lit "get")), fs, l)
        end
    end.
Proof.
  unfold process_file.
  destruct (files fs !! f) as [[content|e]|] eqn:Hf.
  2: { exists []. apply bind_raise. unfold read_text. by rewrite Hf. }
  2: { exists []. apply bind_raise. unfold read_text. rewrite Hf.
       by destruct (stat_error fs f). }
  assert (read_text f fs = (Ok content, fs, [])) as Hread
    by (unfold read_text; by rewrite Hf).
  destruct (load_yaml_metadata_run f fs) as [l0 Hload].
  pose proof (loaded_probe fs f) as Hprobe.
  destruct (loaded fs f) as [[| b | z | s | lst | m]|e] eqn:Hmd;
    try (eexists; eapply bind_run; [exact Hread|];
         eapply bind_run; [exact Hload|]; by apply bind_raise);
    try (eexists; eapply bind_run; [exact Hread|]; by apply bind_raise).
  set (headers := parse_all_headers content).
  set (dt := spec_reconciled ow f m headers).
  destruct (sidecar_step_run auto ow f m
              (match dict_lookup m TAGS with Some x => x | None => VList [] end)
              headers (fst dt) (snd dt) fs (Hprobe _ eq_refl)) as [l1 Hstep].
  cbv zeta.
  destruct (auto && (negb (bool_decide
              (is_Some (files fs !! with_suffix f YAML_EXT))) || ow)).
  - destruct (bool_decide (with_suffix f YAML_EXT ∈ readonly fs)).
    + eexists. eapply bind_run; [exact Hread|].
      eapply bind_run; [exact Hload|].
      eapply bind_run; [reflexivity|].
      eapply bind_run; [apply reconcile_run|].
      apply bind_raise. exact Hstep.
    + eexists. eapply bind_run; [exact Hread|].
      eapply bind_run; [exact Hload|].
      eapply bind_run; [reflexivity|].
      eapply bind_run; [apply reconcile_run|].
      eapply bind_run; [exact Hstep|]. reflexivity.
  - eexists. eapply bind_run; [exact Hread|].
    eapply bind_run; [exact Hload|].
    eapply bind_run; [reflexivity|].
    eapply bind_run; [apply reconcile_run|].
    eapply bind_run; [exact Hstep|]. reflexivity.
Qed.

End Runs.

(** ** The sidecar accessor: the claims *)

Section Accessor.
Context {Y : YamlCodec}.

(** C8. With a sidecar already at the ".yaml" path and [overwrite] false,
    [generate_yaml_metadata] writes nothing: the store it leaves is the
    store it found, and it returns the sidecar path without raising. *)
Theorem generate_keeps_existing (f : path) (doc_id : pyval)
    (tags : list pyval) (fs : fsys) (n : node) :
  files fs !! with_suffix f YAML_EXT = Some n ->
  generate_yaml_metadata f doc_id tags false fs
  = (Ok (with_suffix f YAML_EXT), fs,
     [(DEBUG, SidecarKept (with_suffix f YAML_EXT))]).
Proof.
  intros Hn. rewrite generate_run by (by eapply stat_error_found).
  by rewrite (found_true _ _ _ Hn).
Qed.

(** C7, amended. [load_yaml_metadata] leaves the store alone and probes
    ".yaml" first.  When that sidecar exists the answer is its parsed
    content (the empty mapping if reading or parsing it fails), the same in
    every store that holds this ".yaml" node, whatever is at ".yml".  Only
    when the ".yaml" probe answers that nothing is there is ".yml" probed
    and read, in the same way; with neither, and both probes answered, the
    answer is the empty mapping.  The probes sit outside the [try] blocks:
    the loader raises exactly when a probe it reaches raises, and then
    with that probe's error. *)
Theorem load_probes_in_order (f : path) (fs : fsys) :
  let primary := with_suffix f YAML_EXT in
  let secondary := with_suffix f YML_EXT in
  (exists r l, load_yaml_metadata f fs = (r, fs, l)
     /\ forall e, r = Raise e <->
           stat_error fs primary = Some e
           \/ (files fs !! primary = None /\ stat_error fs primary = None
               /\ stat_error fs secondary = Some e))
  /\ (forall n, files fs !! primary = Some n ->
        fst (fst (load_yaml_metadata f fs)) = Ok (parsed_or_empty n)
        /\ forall fs', files fs' !! primary = Some n ->
             fst (fst (load_yaml_metadata f fs'))
             = fst (fst (load_yaml_metadata f fs)))
  /\ (forall n, files fs !! primary = None -> stat_error fs primary = None ->
        files fs !! secondary = Some n ->
        fst (fst (load_yaml_metadata f fs)) = Ok (parsed_or_empty n))
  /\ (files fs !! primary = None -> stat_error fs primary = None ->
      files fs !! secondary = None -> stat_error fs secondary = None ->
        fst (fst (load_yaml_metadata f fs)) = Ok (VDict []))
  /\ (forall text e, safe_load text = Raise e ->
        parsed_or_empty (File text) = VDict [])
  /\ (forall text v, safe_load text = Ok v ->
        parsed_or_empty (File text) = if truthy v then v else VDict [])
  /\ (forall e, parsed_or_empty (Broken e) = VDict []).
Proof.
  intros primary secondary.
  assert (forall fs0 n, files fs0 !! primary = Some n ->
            fst (fst (load_yaml_metadata f fs0)) = Ok (parsed_or_empty n))
    as Hprimary.
  { intros fs0 n Hn. destruct (load_yaml_metadata_run f fs0) as [l ->].
    simpl. unfold loaded. fold primary. by rewrite Hn. }
  split_and!.
  - destruct (load_yaml_metadata_run f fs) as [l Hl].
    exists (loaded fs f), l. split; [done|]. intros e.
    unfold loaded. fold primary secondary.
    destruct (files fs !! primary) as [n|] eqn:H1.
    { rewrite (stat_error_found _ _ _ H1). split; [done|].
      by intros [?|(? & _)]. }
    destruct (stat_error fs primary) as [e1|] eqn:S1.
    { split; [intros [= ->]; by left|]. by intros [[= ->]|(_ & ? & _)]. }
    destruct (files fs !! secondary) as [n|] eqn:H2.
    { rewrite (stat_error_found _ _ _ H2). split; [done|].
      by intros [?|(_ & _ & ?)]. }
    destruct (stat_error fs secondary) as [e2|] eqn:S2.
    + split; [intros [= ->]; by right|]. by intros [?|(_ & _ & [= ->])].
    + split; [done|]. by intros [?|(_ & _ & ?)].
  - intros n Hn. split; [by apply Hprimary|].
    intros fs' Hn'. by rewrite (Hprimary fs n Hn), (Hprimary fs' n Hn').
  - intros n H1 S1 H2. destruct (load_yaml_metadata_run f fs) as [l ->].
    simpl. unfold loaded. fold primary secondary. by rewrite H1, S1, H2.
  - intros H1 S1 H2 S2. destruct (load_yaml_metadata_run f fs) as [l ->].
    simpl. unfold loaded. fold primary secondary. by rewrite H1, S1, H2, S2.
  - intros text e H. simpl. by rewrite H.
  - intros text v H. simpl. by rewrite H.
  - done.
Qed.

End Accessor.

(** ** The document processor: reconciliation and the sidecar step *)

Section Processor.
Context {Y : YamlCodec}.



(** C3, at the failing input. The sidecar "docs/a.yaml" holds a [doc_id]
    and no tags, the document "docs/a.md" has the heading "H", automatic
    sidecars are on and [overwrite_yaml] is off.  The loop decides to
    write ([should_generate] is true, by its fourth condition) and calls
    [generate_yaml_metadata] with [overwrite=False]; that call finds the
    sidecar and skips the write.  The chunks carry the tag "H", the
    sidecar is left as it was, without tags, and the only record logged
    is the one of the skipped write. *)
Lemma sidecar_without_tags_kept :
  let a_md : path := (lit "docs", lit "a.md") in
  let a_yaml : path := (lit "docs", lit "a.yaml") in
  let old := Toy.toy_dump (VDict [(VStr DOC_ID, VStr (lit "a"))]) in
  let fs :=
    Fsys (<[a_md := File (lit "## H
body")]> (<[a_yaml := File old]> ∅)) ∅ ∅ in
  with_suffix a_md YAML_EXT = a_yaml
  /\ parse_all_headers (lit "## H
body") = [lit "H"]
  /\ @load_yaml_metadata Toy.codec a_md fs
     = (Ok (VDict [(VStr DOC_ID, VStr (lit "a"))]), fs, [])
  /\ should_generate true false (VStr (lit "a")) (VStr (lit "a")) (VList [])
       [lit "H"] = true
  /\ (exists out,
        @process_file Toy.codec true false a_md fs
        = (Ok out, fs, [(DEBUG, SidecarKept a_yaml)])
        /\ p_tags (snd out) = [VStr (lit "H")])
  /\ files fs !! a_yaml = Some (File old)
  /\ old <> Toy.toy_dump (descriptor (VStr (lit "a")) [VStr (lit "H")]).
Proof.
  intros a_md a_yaml old fs.
  assert (with_suffix a_md YAML_EXT = a_yaml) as Hy by (by vm_compute).
  assert (files fs !! a_yaml = Some (File old)) as Hold.
  { unfold fs. simpl. rewrite lookup_insert_ne by (by vm_compute).
    by rewrite lookup_insert_eq. }
  assert (files fs !! a_md = Some (File (lit "## H
body"))) as Hf by (unfold fs; simpl; by rewrite lookup_insert_eq).
  assert (Toy.toy_load old = Ok (VDict [(VStr DOC_ID, VStr (lit "a"))]))
    as Hparse by apply toy_load_dump.
  assert (@load_yaml_metadata Toy.codec a_md fs
          = (Ok (VDict [(VStr DOC_ID, VStr (lit "a"))]), fs, [])) as Hload.
  { unfold load_yaml_metadata. rewrite Hy.
    eapply (bind_run _ _ _ _ _ [] _ _ []); [by eapply exists_found|].
    unfold load_sidecar, try_except, bind, read_text, lift, ret.
    rewrite Hold. change (@safe_load Toy.codec) with Toy.toy_load.
    by rewrite Hparse. }
  split_and!; [done|by vm_compute|done|by vm_compute| |done|].
  - eexists. split.
    + unfold process_file.
      eapply (bind_run _ _ _ _ _ [] _ _ [_]);
        [unfold read_text; by rewrite Hf|].
      eapply (bind_run _ _ _ _ _ [] _ _ [_]); [exact Hload|].
      eapply (bind_run _ _ _ _ _ [] _ _ [_]); [reflexivity|].
      eapply (bind_run _ _ _ _ _ [] _ _ [_]); [reflexivity|].
      eapply (bind_run _ _ _ _ _ [_] _ _ []); [|reflexivity].
      unfold sidecar_step. rewrite Hy.
      eapply (bind_run _ _ _ _ _ [] _ _ [_]); [by eapply exists_found|].
      eapply (bind_run _ _ _ _ _ [] _ _ [_]); [reflexivity|].
      cbn [fst snd].
      replace (should_generate _ _ _ _ _ _) with true by (by vm_compute).
      eapply (bind_run _ _ _ _ _ [] _ _ [_]); [by eapply exists_found|].
      eapply (bind_run _ _ _ _ _ [_] _ _ []); [|reflexivity].
      rewrite <- Hy. rewrite generate_run
        by (rewrite Hy; by eapply stat_error_found).
      rewrite Hy. by rewrite (found_true _ _ _ Hold).
    + by vm_compute.
  - intros Heq. apply (f_equal Toy.toy_load) in Heq.
    rewrite !toy_load_dump in Heq. discriminate Heq.
Qed.

End Processor.

(** ** The walk over the files *)

Section Walk.
Context {Y : YamlCodec}.

Lemma process_body_run auto ow st f fs r fs1 l :
  process_file auto ow f fs = (r, fs1, l) ->
  exists l', process_body auto ow st f fs = (Ok (absorb st f r), fs1, l').
Proof.
  intros H. unfold process_body, try_except, bind, ret. rewrite H.
  destruct r as [out|e]; simpl; eauto.
Qed.

(** The walk handles the first file, then the others from where that
    left the store and the accumulators. *)
Lemma for_each_cons auto ow f rest st fs r fs1 l1 :
  process_file auto ow f fs = (r, fs1, l1) ->
  exists l1',
    for_each (process_body auto ow) (f :: rest) st fs =
    (fst (fst (for_each (process_body auto ow) rest (absorb st f r) fs1)),
     snd (fst (for_each (process_body auto ow) rest (absorb st f r) fs1)),
     l1' ++ snd (for_each (process_body auto ow) rest (absorb st f r) fs1)).
Proof.
  intros H. destruct (process_body_run auto ow st f fs r fs1 l1 H) as [l' Hb].
  exists l'. simpl. unfold bind. rewrite Hb.
  by destruct (for_each (process_body auto ow) rest (absorb st f r) fs1)
    as [[r2 fs2] l2].
Qed.


(** The walk never raises. *)
Lemma for_each_total auto ow md_files st fs :
  exists st' fs' l,
    for_each (process_body auto ow) md_files st fs = (Ok st', fs', l).
Proof.
  revert st fs. induction md_files as [|f rest IH]; intros st fs.
  - simpl. unfold ret. eauto.
  - destruct (process_file auto ow f fs) as [[r fs1] l1] eqn:Hf.
    destruct (for_each_cons auto ow f rest st fs r fs1 l1 Hf) as [l1' ->].
    destruct (IH (absorb st f r) fs1) as (st' & fs' & l & ->). simpl. eauto.
Qed.

Lemma for_each_app auto ow pre post st fs st1 fs1 l1 :
  for_each (process_body auto ow) pre st fs = (Ok st1, fs1, l1) ->
  for_each (process_body auto ow) (pre ++ post) st fs =
  (fst (fst (for_each (process_body auto ow) post st1 fs1)),
   snd (fst (for_each (process_body auto ow) post st1 fs1)),
   l1 ++ snd (for_each (process_body auto ow) post st1 fs1)).
Proof.
  revert st fs l1. induction pre as [|f pre IH]; intros st fs l1 Hpre.
  - simpl in Hpre. unfold ret in Hpre. injection Hpre as <- <- <-.
    simpl. by destruct (for_each (process_body auto ow) post st fs) as [[? ?] ?].
  - destruct (process_file auto ow f fs) as [[r fs0] l0] eqn:Hf.
    destruct (for_each_cons auto ow f pre st fs r fs0 l0 Hf) as [l0' Hc].
    destruct (for_each_cons auto ow f (pre ++ post) st fs r fs0 l0 Hf)
      as [l0'' Hc'].
    assert (l0'' = l0') as ->.
    { destruct (process_body_run auto ow st f fs r fs0 l0 Hf) as [lb Hb].
      simpl in Hc, Hc'. unfold bind in Hc, Hc'. rewrite Hb in Hc, Hc'.
      destruct (for_each (process_body auto ow) pre (absorb st f r) fs0)
        as [[? ?] la].
      destruct (for_each (process_body auto ow) (pre ++ post) (absorb st f r) fs0)
        as [[? ?] lb'].
      simpl in Hc, Hc'. injection Hc as Hc. injection Hc' as Hc'.
      apply app_inv_tail in Hc, Hc'. congruence. }
    change ((f :: pre) ++ post) with (f :: pre ++ post). rewrite Hc'.
    rewrite Hc in Hpre.
    destruct (for_each (process_body auto ow) pre (absorb st f r) fs0)
      as [[rp fsp] lp] eqn:Hp.
    simpl in Hpre. injection Hpre as -> -> <-.
    rewrite (IH _ _ _ Hp). simpl. by rewrite app_assoc.
Qed.

(** Entries are only ever appended. *)
Lemma absorb_errors_grow st f r x :
  In x (errors (snd st)) -> In x (errors (snd (absorb st f r))).
Proof.
  destruct r; simpl; [done|]. intros H. apply in_or_app. by left.
Qed.

Lemma for_each_errors_grow auto ow md_files st fs st' fs' l x :
  for_each (process_body auto ow) md_files st fs = (Ok st', fs', l) ->
  In x (errors (snd st)) -> In x (errors (snd st')).
Proof.
  revert st fs l. induction md_files as [|f rest IH]; intros st fs l Hrun Hx.
  - simpl in Hrun. unfold ret in Hrun. by injection Hrun as <- _ _.
  - destruct (process_file auto ow f fs) as [[r fs1] l1] eqn:Hf.
    destruct (for_each_cons auto ow f rest st fs r fs1 l1 Hf) as [l1' Hc].
    rewrite Hc in Hrun.
    destruct (for_each (process_body auto ow) rest (absorb st f r) fs1)
      as [[r2 fs2] l2] eqn:Hrest.
    simpl in Hrun. injection Hrun as -> -> _.
    eapply IH; [exact Hrest|]. by apply absorb_errors_grow.
Qed.

(** C9. The walk never raises: it returns the accumulator and the report.
    At every file of the list, whatever its processing does, the walk goes
    on with the remaining files from the store that file left; when the
    processing raises, the accumulator is kept, an entry with the file's
    path and the exception's message is appended to the errors, and it is
    there in the final report.  A Markdown file that cannot be read, a
    sidecar that cannot be written, and a sidecar probe that the system
    refuses, make the processing raise. *)
Theorem walk_survives_failures (auto ow : bool) (md_files : list path)
    (fs : fsys) :
  (exists acc rep fs' l,
     process_markdown_docs md_files auto ow fs = (Ok (acc, rep), fs', l))
  /\ (forall pre f post, md_files = pre ++ f :: post ->
      exists st1 fs1 l1 r fs2 l2 st3 fs3 l3 l2',
        for_each (process_body auto ow) pre ([], Report [] []) fs
        = (Ok st1, fs1, l1)
        /\ process_file auto ow f fs1 = (r, fs2, l2)
        /\ for_each (process_body auto ow) post (absorb st1 f r) fs2
           = (Ok st3, fs3, l3)
        /\ process_markdown_docs md_files auto ow fs
           = (Ok st3, fs3, l1 ++ l2' ++ l3)
        /\ forall e, r = Raise e ->
             absorb st1 f r
             = (fst st1,
                Report (processed (snd st1))
                  (errors (snd st1) ++ [Failed (path_str f) (exn_text e)]))
             /\ In (Failed (path_str f) (exn_text e)) (errors (snd st3)))
  /\ (forall f fs0 e, files fs0 !! f = Some (Broken e) ->
      exists l, process_file auto ow f fs0 = (Raise e, fs0, l))
  /\ (forall f fs0 content m,
        files fs0 !! f = Some (File content) ->
        loaded fs0 f = Ok (VDict m) ->
        auto = true ->
        files fs0 !! with_suffix f YAML_EXT = None \/ ow = true ->
        with_suffix f YAML_EXT ∈ readonly fs0 ->
        exists l,
          process_file auto ow f fs0
          = (Raise (not_writable (with_suffix f YAML_EXT)), fs0, l))
  /\ (forall f fs0 content e,
        files fs0 !! f = Some (File content) ->
        loaded fs0 f = Raise e ->
        exists l, process_file auto ow f fs0 = (Raise e, fs0, l)).
Proof.
  split_and!.
  - destruct (for_each_total auto ow md_files ([], Report [] []) fs)
      as ([acc rep] & fs' & l & H). unfold process_markdown_docs. eauto.
  - intros pre f post ->.
    destruct (for_each_total auto ow pre ([], Report [] []) fs)
      as (st1 & fs1 & l1 & Hpre).
    destruct (process_file auto ow f fs1) as [[r fs2] l2] eqn:Hf.
    destruct (for_each_total auto ow post (absorb st1 f r) fs2)
      as (st3 & fs3 & l3 & Hpost).
    destruct (for_each_cons auto ow f post st1 fs1 r fs2 l2 Hf) as [l2' Hc].
    exists st1, fs1, l1, r, fs2, l2, st3, fs3, l3, l2'.
    split_and!; try done.
    + unfold process_markdown_docs.
      rewrite (for_each_app auto ow pre (f :: post) _ _ _ _ _ Hpre).
      rewrite Hc, Hpost. done.
    + intros e ->. split; [done|].
      eapply for_each_errors_grow; [exact Hpost|].
      simpl. apply in_or_app. right. by left.
  - intros f fs0 e Hf. destruct (process_file_run auto ow f fs0) as [l Hpf].
    rewrite Hf in Hpf. eauto.
  - intros f fs0 content m Hf Hmd -> Hcond Hro.
    destruct (process_file_run true ow f fs0) as [l Hpf].
    rewrite Hf, Hmd in Hpf. cbv zeta in Hpf.
    rewrite (bool_decide_eq_true_2 _ Hro) in Hpf.
    assert (negb (bool_decide (is_Some (files fs0 !! with_suffix f YAML_EXT)))
            || ow = true) as Hc.
    { destruct Hcond as [Hn| ->]; [|by rewrite orb_true_r].
      by rewrite (found_false _ _ Hn). }
    rewrite Hc in Hpf. simpl in Hpf. eauto.
  - intros f fs0 content e Hf Hmd.
    destruct (process_file_run auto ow f fs0) as [l Hpf].
    rewrite Hf, Hmd in Hpf. eauto.
Qed.

End Walk.

(** ** Running the processor twice *)

Section Idempotence.
Context {Y : YamlCodec}.














End Idempotence.

(** ** The claims at concrete documents and stores *)

Example scenario_chunks :
  split_to_chunks Demo.body
  = [lit "Intro"; lit "## Setup
Step 1"; lit "## Usage
Step 2"].
Proof. by vm_compute. Qed.

Example scenario_headings :
  parse_all_headers Demo.body = [lit "Setup"; lit "Usage"].
Proof. by vm_compute. Qed.

Example scenario_processed :
  exists out fs' l,
    @process_file Toy.codec true false Demo.a_md Demo.fs_plain
    = (Ok out, fs', l)
    /\ p_doc_id (snd out) = VStr (lit "a")
    /\ p_tags (snd out) = [VStr (lit "Setup"); VStr (lit "Usage")]
    /\ List.map meta_tag (fst out)
       = [VStr (lit "Setup"); VStr (lit "Setup"); VStr (lit "Setup")].
Proof. vm_compute. eexists _, _, _. split_and!; reflexivity. Qed.




Example primary_sidecar_wins :
  @loaded Toy.codec Demo.fs_both Demo.a_md
  = Ok (descriptor (VStr (lit "X")) [VStr (lit "t")]).
Proof. by vm_compute. Qed.

Lemma generate_keeps_existing_witness :
  files Demo.fs_both !! with_suffix Demo.a_md YAML_EXT = Some Demo.yaml_node
  /\ @generate_yaml_metadata Toy.codec Demo.a_md (VStr (lit "new")) [] false
       Demo.fs_both
     = (Ok (with_suffix Demo.a_md YAML_EXT), Demo.fs_both,
        [(DEBUG, SidecarKept (with_suffix Demo.a_md YAML_EXT))]).
Proof.
  assert (files Demo.fs_both !! with_suffix Demo.a_md YAML_EXT
          = Some Demo.yaml_node) as H by (vm_compute; reflexivity).
  split; [exact H|].
  exact (@generate_keeps_existing Toy.codec Demo.a_md (VStr (lit "new")) []
           Demo.fs_both Demo.yaml_node H).
Defined.

(** The store with the long name: no sidecar is there, and the ".yaml"
    probe is refused. *)
Lemma long_name_probe :
  files Demo.fs_long !! Demo.long_md = Some (File Demo.body)
  /\ files Demo.fs_long !! with_suffix Demo.long_md YAML_EXT = None
  /\ files Demo.fs_long !! with_suffix Demo.long_md YML_EXT = None
  /\ stat_error Demo.fs_long (with_suffix Demo.long_md YAML_EXT)
     = Some Demo.name_too_long.
Proof.
  set (yaml := with_suffix Demo.long_md YAML_EXT).
  set (yml := with_suffix Demo.long_md YML_EXT).
  assert (files Demo.fs_long !! yaml = None) as Hy.
  { unfold Demo.fs_long. cbn [files].
    rewrite lookup_insert_ne; [apply lookup_empty|].
    intros H. apply (f_equal (fun p => length (snd p))) in H.
    vm_compute in H. discriminate H. }
  assert (files Demo.fs_long !! yml = None) as Hyml.
  { unfold Demo.fs_long. cbn [files].
    rewrite lookup_insert_ne; [apply lookup_empty|].
    intros H. apply (f_equal (fun p => length (snd p))) in H.
    vm_compute in H. discriminate H. }
  split_and!; [|done|done|].
  - unfold Demo.fs_long. cbn [files]. apply lookup_insert_eq.
  - unfold stat_error. rewrite Hy. unfold Demo.fs_long.
    cbn [readonly refused]. fold yaml.
    rewrite bool_decide_eq_true_2 by set_solver.
    apply lookup_singleton_eq.
Qed.

Lemma load_probes_in_order_witness :
  files Demo.fs_both !! with_suffix Demo.a_md YAML_EXT = Some Demo.yaml_node
  /\ fst (fst (@load_yaml_metadata Toy.codec Demo.a_md Demo.fs_both))
     = Ok (@parsed_or_empty Toy.codec Demo.yaml_node)
  /\ exists l,
       @load_yaml_metadata Toy.codec Demo.long_md Demo.fs_long
       = (Raise Demo.name_too_long, Demo.fs_long, l).
Proof.
  assert (files Demo.fs_both !! with_suffix Demo.a_md YAML_EXT
          = Some Demo.yaml_node) as H by (vm_compute; reflexivity).
  split; [exact H|]. split.
  - destruct (@load_probes_in_order Toy.codec Demo.a_md Demo.fs_both)
      as (_ & Hprimary & _).
    exact (proj1 (Hprimary Demo.yaml_node H)).
  - destruct (@load_probes_in_order Toy.codec Demo.long_md Demo.fs_long)
      as ((r & l & Hrun & Hraise) & _).
    destruct long_name_probe as (_ & _ & _ & Hs).
    exists l. rewrite Hrun.
    by rewrite (proj2 (Hraise Demo.name_too_long) (or_introl Hs)).
Defined.

(** C7, as stated, fails: neither sidecar of the document with the long
    name exists, and the loader raises.  The name of the ".yaml" sidecar
    is too long for the file system, the probe [exists()] raises, and no
    [try] is around it. *)
Lemma load_raises_when_probe_refused :
  length (name Demo.long_md) = 254%nat
  /\ length (name (with_suffix Demo.long_md YAML_EXT)) = 256%nat
  /\ files Demo.fs_long !! with_suffix Demo.long_md YAML_EXT = None
  /\ files Demo.fs_long !! with_suffix Demo.long_md YML_EXT = None
  /\ @load_yaml_metadata Toy.codec Demo.long_md Demo.fs_long
     = (Raise Demo.name_too_long, Demo.fs_long, []).
Proof.
  destruct long_name_probe as (_ & Hy & Hyml & Hs).
  split_and!; [by vm_compute|by vm_compute|done|done|].
  unfold load_yaml_metadata. apply bind_raise. by apply exists_refused.
Qed.

(** The document with the long name is not processed: the walk records
    the error of the probe and goes on. *)
Example long_name_lands_in_errors :
  exists l,
    @process_markdown_docs Toy.codec [Demo.long_md; Demo.a_md] true false
      Demo.fs_long
    = (Ok ([], Report []
                 [Failed (path_str Demo.long_md)
                    (exn_text Demo.name_too_long);
                  Failed (path_str Demo.a_md)
                    (exn_text (file_not_found Demo.a_md))]),
       Demo.fs_long, l).
Proof.
  destruct long_name_probe as (Hf & Hy & Hyml & Hs).
  destruct (@process_file_run Toy.codec true false Demo.long_md Demo.fs_long)
    as [l1 H1].
  assert (@loaded Toy.codec Demo.fs_long Demo.long_md
          = Raise Demo.name_too_long) as Hmd
    by (unfold loaded; by rewrite Hy, Hs).
  rewrite Hf, Hmd in H1.
  destruct (@process_file_run Toy.codec true false Demo.a_md Demo.fs_long)
    as [l2 H2].
  assert (files Demo.fs_long !! Demo.a_md = None) as Ha.
  { unfold Demo.fs_long. cbn [files].
    rewrite lookup_insert_ne; [apply lookup_empty|].
    intros H. apply (f_equal (fun p => length (snd p))) in H.
    vm_compute in H. discriminate H. }
  assert (stat_error Demo.fs_long Demo.a_md = None) as Sa.
  { unfold stat_error. rewrite Ha. unfold Demo.fs_long. cbn [readonly].
    rewrite bool_decide_eq_false_2; [done|].
    rewrite elem_of_singleton.
    intros H. apply (f_equal (fun p => length (snd p))) in H.
    vm_compute in H. discriminate H. }
  rewrite Ha, Sa in H2.
  destruct (@for_each_cons Toy.codec true false Demo.long_md [Demo.a_md]
              ([], Report [] []) _ _ _ _ H1) as [l1' Hc].
  destruct (@for_each_cons Toy.codec true false Demo.a_md []
              (absorb ([], Report [] []) Demo.long_md
                 (Raise Demo.name_too_long)) _ _ _ _ H2) as [l2' Hc2].
  eexists. unfold process_markdown_docs. rewrite Hc, Hc2. reflexivity.
Qed.

Lemma walk_survives_failures_witness :
  files Demo.fs_broken !! Demo.a_md
  = Some (Broken (Exn (lit "PermissionError") (lit "denied")))
  /\ (exists l,
        @process_file Toy.codec true false Demo.a_md Demo.fs_broken
        = (Raise (Exn (lit "PermissionError") (lit "denied")),
           Demo.fs_broken, l))
  /\ exists acc rep fs' l,
       @process_markdown_docs Toy.codec [Demo.a_md; Demo.b_md] true false
         Demo.fs_broken = (Ok (acc, rep), fs', l).
Proof.
  assert (files Demo.fs_broken !! Demo.a_md
          = Some (Broken (Exn (lit "PermissionError") (lit "denied")))) as H
    by (vm_compute; reflexivity).
  destruct (@walk_survives_failures Toy.codec true false
              [Demo.a_md; Demo.b_md] Demo.fs_broken)
    as (Hret & _ & Hread & _).
  split; [exact H|]. split; [|exact Hret].
  exact (Hread Demo.a_md Demo.fs_broken _ H).
Defined.

Example walk_records_the_failure :
  exists acc fs' l,
    @process_markdown_docs Toy.codec [Demo.a_md; Demo.b_md] true false
      Demo.fs_broken
    = (Ok (acc,
           Report [Processed (lit "docs/b.md") (VStr (lit "b"))
                     [VStr (lit "Setup"); VStr (lit "Usage")] 3]
                  [Failed (lit "docs/a.md") (lit "denied")]),
       fs', l)
    /\ length acc = 3%nat.
Proof. vm_compute. eexists _, _, _. split; reflexivity. Qed.

Lemma tag_chunks_uniform_witness :
  Forall (fun x => x = VStr (lit "Setup"))
    (tag_chunks [lit "Intro"; lit "## Setup"]
       [VStr (lit "Setup"); VStr (lit "Usage")])
  /\ Forall (fun x => x = VStr MISC) (tag_chunks [lit "Intro"] []).
Proof.
  split.
  - destruct (tag_chunks_uniform [lit "Intro"; lit "## Setup"]
                [VStr (lit "Setup"); VStr (lit "Usage")]) as (_ & Hfirst & _).
    exact (Hfirst (VStr (lit "Setup")) [VStr (lit "Usage")] eq_refl).
  - destruct (tag_chunks_uniform [lit "Intro"] []) as (_ & _ & Hmisc & _).
    exact (Hmisc eq_refl).
Defined.

Lemma split_heading_edge_cases_witness :
  split_to_chunks (lit "ab") = [strip (lit "ab")]
  /\ split_to_chunks (lit "  ") = []
  /\ Forall opens_with_heading (split_to_chunks (lit "## A")).
Proof.
  split_and!.
  - destruct (split_heading_edge_cases (lit "ab")) as ((Hone & _) & _).
    + vm_compute. repeat constructor.
    + destruct Hone as [_ Hexact].
      * exists 97. split; [by left|reflexivity].
      * apply Hexact. intros c Hc Hlb. vm_compute in Hc.
        destruct Hc as [<-|[<-|[]]]; discriminate Hlb.
  - destruct (split_heading_edge_cases (lit "  ")) as ((_ & Hnone) & _).
    + vm_compute. repeat constructor.
    + apply Hnone. vm_compute. repeat constructor.
  - destruct (split_heading_edge_cases (lit "## A")) as (_ & Hhead).
    exact (proj1 (Hhead eq_refl)).
Defined.

Lemma split_rejoin_witness :
  exists w0 cws w,
    split_to_chunks Demo.body = List.map fst cws
    /\ all_space w0
    /\ Forall (fun cw => all_space (snd cw)) cws
    /\ all_space w
    /\ Demo.body = interleave w0 cws ++ w.
Proof.
  destruct (split_rejoin Demo.body)
    as (groups & w0 & cws & _ & _ & Hs & Hw0 & Hcws & _ & Hlf & _).
  destruct Hlf as (w & Hw & Hbody).
  { apply (proj1 (List.Forall_forall
                    (fun c => is_linebreak c = true -> c = LF) Demo.body)).
    vm_compute.
    repeat (constructor;
            [intros Hlb; first [discriminate Hlb | reflexivity]|]).
    constructor. }
  by exists w0, cws, w.
Defined.

(** Two Markdown files can share their sidecar: ".md" has no suffix for
    [pathlib], ".md.md" has the suffix ".md". *)
Example shared_sidecar :
  is_md (lit "docs", lit ".md") /\ is_md (lit "docs", lit ".md.md")
  /\ with_suffix (lit "docs", lit ".md") YAML_EXT
     = with_suffix (lit "docs", lit ".md.md") YAML_EXT.
Proof.
  split_and!; [by exists []|by exists (lit ".md")|by vm_compute].
Qed.

(* ===================================================================== *)
(** * Further properties of the chunker and of the headings *)
(* ===================================================================== *)

Lemma splitlines_break c s :
  is_linebreak c = true ->
  splitlines (c :: s) = [] :: splitlines (after_break c s).
Proof.
  intros Hc. simpl. rewrite Hc. unfold after_break.
  destruct (c =? CR); [|done]. destruct s as [|c2 s']; [done|].
  by destruct (c2 =? LF).
Qed.

Lemma after_break_length c s : (length (after_break c s) <= length s)%nat.
Proof.
  unfold after_break. destruct (c =? CR); [|done].
  destruct s as [|c2 s']; [done|]. destruct (c2 =? LF); simpl; lia.
Qed.

(** Induction along the way [splitlines] reads a text. *)
Lemma splitlines_ind (P : str -> Prop) :
  P [] ->
  (forall c s, is_linebreak c = true -> P (after_break c s) -> P (c :: s)) ->
  (forall c s, is_linebreak c = false -> P s -> P (c :: s)) ->
  forall s, P s.
Proof.
  intros Hnil Hbreak Htext s.
  remember (length s) as n eqn:Hn. revert s Hn.
  induction (lt_wf n) as [n _ IH]. intros s Hn.
  destruct s as [|c s]; [done|]. simpl in Hn.
  destruct (is_linebreak c) eqn:Hc.
  - apply Hbreak; [done|].
    apply (IH (length (after_break c s))); [|done].
    pose proof (after_break_length c s). lia.
  - apply Htext; [done|]. apply (IH (length s)); [lia|done].
Qed.

(** A line holds no line boundary. *)
Lemma splitlines_no_break s :
  Forall (Forall (fun c => is_linebreak c = false)) (splitlines s).
Proof.
  induction s as [|c s Hc IH|c s Hc IH] using splitlines_ind.
  - constructor.
  - rewrite splitlines_break by done. by constructor.
  - rewrite splitlines_cons_text by done.
    destruct (splitlines s) as [|l ls]; [by repeat constructor|].
    inversion IH as [|? ? Hl Hls]; subst. constructor; [|done].
    by constructor.
Qed.

(** The first line is a prefix of the text. *)
Lemma splitlines_first_prefix s l ls :
  splitlines s = l :: ls -> exists r, s = l ++ r.
Proof.
  revert l ls. induction s as [|c s IH]; intros l ls; [done|].
  simpl. destruct (is_linebreak c).
  - intros H. injection H as <- _. by exists (c :: s).
  - destruct (splitlines s) as [|l' ls'] eqn:Hs.
    + apply splitlines_nil_inv in Hs. subst s.
      intros H. injection H as <- _. by exists [].
    + intros H. injection H as <- _.
      destruct (IH l' ls' eq_refl) as [r ->]. by exists r.
Qed.

Lemma startswith_app p s r :
  startswith p s = true -> startswith p (s ++ r) = true.
Proof.
  revert s. induction p as [|a p IH]; intros s; [done|].
  destruct s as [|b s]; [done|].
  change (startswith (a :: p) (b :: s))
    with ((a =? b) && startswith p s).
  change (startswith (a :: p) ((b :: s) ++ r))
    with ((a =? b) && startswith p (s ++ r)).
  rewrite !andb_true_iff. intros [Hab Hp]. split; [done|by apply IH].
Qed.

Lemma tl_snoc_plain (buf : list str) line :
  Forall (fun l => startswith heading_prefix l = false) (tl buf) ->
  (buf = [] \/ startswith heading_prefix line = false) ->
  Forall (fun l => startswith heading_prefix l = false) (tl (buf ++ [line])).
Proof.
  intros Hbuf Hline. destruct buf as [|b buf]; simpl; [constructor|].
  apply Forall_app. split; [done|].
  destruct Hline as [?|Hline]; [done|]. by repeat constructor.
Qed.

Lemma group_loop_tails lines groups buf :
  tails_plain groups ->
  Forall (fun l => startswith heading_prefix l = false) (tl buf) ->
  tails_plain (group_flush (fold_left group_step lines (groups, buf))).
Proof.
  revert groups buf.
  induction lines as [|line lines IH]; intros groups buf Hg Hb.
  - simpl. destruct buf; simpl; [done|].
    apply Forall_app. split; [done|]. by repeat constructor.
  - cbn [fold_left]. unfold group_step at 2.
    destruct (startswith heading_prefix line) eqn:Hline; simpl.
    + destruct buf as [|b buf]; simpl.
      * apply IH; [done|constructor].
      * apply IH; [|constructor].
        apply Forall_app. split; [done|]. by repeat constructor.
    + apply IH; [done|]. apply tl_snoc_plain; [done|by right].
Qed.

Lemma line_groups_tails lines : tails_plain (line_groups lines).
Proof. apply group_loop_tails; constructor. Qed.

(** A group with a plain tail holds one break-marker line if it opens with
    one, and none otherwise. *)
Lemma heading_lines_of_group g :
  Forall (fun l => startswith heading_prefix l = false) (tl g) ->
  length (List.filter (startswith heading_prefix) g)
  = if headedb g then 1%nat else 0%nat.
Proof.
  destruct g as [|l g]; [done|]. simpl. intros Hg.
  assert (List.filter (startswith heading_prefix) g = []) as ->.
  { induction Hg as [|x g Hx _ IH]; [done|]. simpl. by rewrite Hx. }
  by destruct (startswith heading_prefix l).
Qed.

Lemma heading_lines_of_groups gs :
  tails_plain gs ->
  length (List.filter (startswith heading_prefix) (concat gs))
  = length (List.filter headedb gs).
Proof.
  induction 1 as [|g gs Hg _ IH]; [done|].
  simpl. rewrite List.filter_app, length_app, IH, heading_lines_of_group by done.
  by destruct (headedb g).
Qed.

Lemma headedb_headed g : headedb g = true <-> headed g.
Proof. by destruct g. Qed.

Lemma opens_with_heading_nonempty ch : opens_with_heading ch -> nonempty ch = true.
Proof.
  intros [H| ->]; [|done]. apply startswith_heading_inv in H as [t ->]. done.
Qed.

Lemma headed_chunks_kept gs :
  (length (List.filter headedb gs)
   <= length (List.filter nonempty (List.map flushed gs)))%nat.
Proof.
  induction gs as [|g gs IH]; [done|]. simpl.
  destruct (headedb g) eqn:Hg.
  - apply headedb_headed, flushed_headed, opens_with_heading_nonempty in Hg.
    rewrite Hg. simpl. lia.
  - destruct (nonempty (flushed g)); simpl; lia.
Qed.

Lemma filter_length_le {A} (f : A -> bool) l :
  (length (List.filter f l) <= length l)%nat.
Proof.
  induction l as [|x l IH]; [done|]. simpl. destruct (f x); simpl; lia.
Qed.

Lemma headed_groups_count gs :
  Forall headed gs -> length (List.filter headedb gs) = length gs.
Proof.
  induction 1 as [|g gs Hg _ IH]; [done|].
  simpl. apply headedb_headed in Hg. rewrite Hg. simpl. by rewrite IH.
Qed.

(** X1. Every heading gets a chunk of its own, and at most one chunk, the
    preamble, has none: the number of chunks is the number of headings or
    one more, and it is the number of headings when the body begins with a
    break marker. *)
Theorem chunks_follow_headings (content : str) :
  (length (parse_all_headers content) <= length (split_to_chunks content)
   <= length (parse_all_headers content) + 1)%nat
  /\ (startswith heading_prefix content = true ->
      length (split_to_chunks content) = length (parse_all_headers content)).
Proof.
  unfold parse_all_headers. rewrite length_map, split_to_chunks_groups.
  set (gs := line_groups (splitlines content)).
  assert (length (List.filter (startswith heading_prefix) (splitlines content))
          = length (List.filter headedb gs)) as ->.
  { rewrite <- (line_groups_concat (splitlines content)).
    apply heading_lines_of_groups, line_groups_tails. }
  pose proof (headed_chunks_kept gs) as Hlow.
  pose proof (filter_length_le nonempty (List.map flushed gs)) as Hup.
  rewrite length_map in Hup.
  split.
  - split; [done|].
    destruct (line_groups_inv (splitlines content)) as [_ Hhd]. fold gs in Hhd.
    destruct gs as [|g gs']; [simpl in *; lia|].
    simpl in Hhd. pose proof (headed_groups_count gs' Hhd) as Hc.
    simpl in *. destruct (headedb g); simpl in *; lia.
  - intros Hhead.
    destruct (first_line_headed content Hhead) as (line & lines & Hl & Hline).
    pose proof (line_groups_all_headed line lines Hline) as Hall.
    rewrite <- Hl in Hall. fold gs in Hall.
    pose proof (headed_groups_count gs Hall). lia.
Qed.

Lemma strip_sublist (P : N -> Prop) s : Forall P s -> Forall P (strip s).
Proof.
  intros H. destruct (strip_split s) as (w1 & w2 & _ & _ & Hs).
  rewrite Hs in H. apply Forall_app in H as [_ H].
  by apply Forall_app in H as [H _].
Qed.

Lemma skipn_sublist (P : N -> Prop) n s : Forall P s -> Forall P (skipn n s).
Proof.
  intros H. rewrite <- (firstn_skipn n s) in H.
  by apply Forall_app in H as [_ H].
Qed.

(** X2. [parse_all_headers] returns one title per break-marker line; every
    title is trimmed and holds no line boundary. *)
Theorem headers_are_clean (content : str) :
  length (parse_all_headers content)
  = length (List.filter (startswith heading_prefix) (splitlines content))
  /\ Forall (fun h => strip h = h
                      /\ Forall (fun c => is_linebreak c = false) h)
       (parse_all_headers content).
Proof.
  unfold parse_all_headers. split; [apply length_map|].
  apply List.Forall_forall. intros h Hh.
  apply in_map_iff in Hh as (line & <- & Hline).
  apply filter_In in Hline as [Hline _].
  split; [apply strip_idem|].
  apply strip_sublist, skipn_sublist.
  pose proof (splitlines_no_break content) as Hall.
  rewrite List.Forall_forall in Hall. by apply Hall.
Qed.

Lemma join_only_lf (g : list str) :
  Forall (Forall (fun c => is_linebreak c = false)) g ->
  Forall (fun c => is_linebreak c = true -> c = LF) (join newline g).
Proof.
  induction 1 as [|l g Hl _ IH]; [constructor|].
  rewrite join_cons. apply Forall_app. split.
  - eapply Forall_impl; [exact Hl|]. intros c Hc Hb. congruence.
  - destruct g as [|l2 g]; [constructor|].
    apply Forall_app. split; [by repeat constructor|done].
Qed.

Lemma Forall_concat_inv {A} (P : A -> Prop) (gs : list (list A)) :
  Forall P (concat gs) -> Forall (Forall P) gs.
Proof.
  induction gs as [|g gs IH]; [constructor|]. simpl.
  intros H. apply Forall_app in H as [Hg Hgs]. constructor; [done|by apply IH].
Qed.

Lemma line_groups_no_break content :
  Forall (Forall (Forall (fun c => is_linebreak c = false)))
    (line_groups (splitlines content)).
Proof.
  apply Forall_concat_inv. rewrite line_groups_concat.
  apply splitlines_no_break.
Qed.

Lemma chunks_only_lf (content : str) :
  Forall (fun ch => Forall (fun c => is_linebreak c = true -> c = LF) ch)
    (split_to_chunks content).
Proof.
  rewrite split_to_chunks_groups. apply Forall_filter_keep.
  apply List.Forall_forall. intros ch Hch.
  apply in_map_iff in Hch as (g & <- & Hg).
  apply strip_sublist, join_only_lf.
  pose proof (line_groups_no_break content) as Hall.
  rewrite List.Forall_forall in Hall. by apply Hall.
Qed.

(** X3. In a chunk, "\n" is the only line boundary: "\r\n" and the other
    boundaries of the body have become "\n". *)
Theorem chunks_use_newline_only (content : str) :
  Forall (fun ch => Forall (fun c => is_linebreak c = true -> c = LF) ch)
    (split_to_chunks content).
Proof. apply chunks_only_lf. Qed.

(** ** Chunking a chunk again *)

Lemma marker_only_first_sub w1 s w2 :
  marker_only_first (w1 ++ s ++ w2) -> marker_only_first s.
Proof.
  intros H a c b ->. apply (H (w1 ++ a) c (b ++ w2)).
  by rewrite <- !app_assoc.
Qed.

Lemma first_line_heading_text s l ls :
  splitlines s = l :: ls ->
  startswith heading_prefix l = true -> startswith heading_prefix s = true.
Proof.
  intros Hs Hl. destruct (splitlines_first_prefix s l ls Hs) as [r ->].
  by apply startswith_app.
Qed.

Lemma after_break_suffix c s :
  is_linebreak c = true ->
  exists pre d, c :: s = pre ++ d :: after_break c s /\ is_linebreak d = true.
Proof.
  intros Hc. unfold after_break. destruct (c =? CR) eqn:Hcr.
  - destruct s as [|c2 s']; [by exists [], c|].
    destruct (c2 =? LF) eqn:Hlf; [|by exists [], c].
    apply N.eqb_eq in Hlf. subst c2. by exists [c], LF.
  - by exists [], c.
Qed.

(** Only the first line of such a text can be a heading. *)
Lemma marker_only_first_lines s :
  marker_only_first s ->
  Forall (fun line => startswith heading_prefix line = false)
    (tl (splitlines s)).
Proof.
  induction s as [|c s Hc IH|c s Hc IH] using splitlines_ind; intros Hs.
  - constructor.
  - rewrite splitlines_break by done. simpl.
    destruct (after_break_suffix c s Hc) as (pre & d & Hcs & Hd).
    assert (marker_only_first (after_break c s)) as Hrest.
    { apply (marker_only_first_sub (pre ++ [d]) _ []).
      rewrite app_nil_r, <- app_assoc. simpl. by rewrite <- Hcs. }
    specialize (IH Hrest).
    destruct (splitlines (after_break c s)) as [|l ls] eqn:Hl; [constructor|].
    constructor; [|done].
    destruct (startswith heading_prefix l) eqn:Hhead; [|done].
    pose proof (first_line_heading_text _ l ls Hl Hhead) as Htext.
    apply startswith_heading_inv in Htext as [t Ht].
    rewrite Ht in Hcs. specialize (Hs pre d t Hcs). congruence.
  - rewrite splitlines_cons_text by done.
    assert (marker_only_first s) as Hrest.
    { apply (marker_only_first_sub [c] _ []). by rewrite app_nil_r. }
    specialize (IH Hrest). by destruct (splitlines s).
Qed.

Lemma break_not_in_line (l tail a X : str) c :
  Forall (fun x => is_linebreak x = false) l ->
  is_linebreak c = true ->
  l ++ tail = a ++ c :: X ->
  exists a', tail = a' ++ c :: X.
Proof.
  intros Hl Hc. revert a. induction Hl as [|x l Hx _ IH]; intros a Heq.
  - by exists a.
  - destruct a as [|y a]; simpl in Heq.
    + injection Heq as -> _. congruence.
    + injection Heq as _ Heq. by apply IH in Heq.
Qed.

Lemma startswith_before_break (l tail : str) :
  startswith heading_prefix (l ++ tail) = true ->
  tail = [] \/ (exists t, tail = LF :: t) ->
  startswith heading_prefix l = true.
Proof.
  intros H [->|[t ->]]; [by rewrite app_nil_r in H|].
  apply startswith_heading_inv in H as [r Hr].
  destruct l as [|x [|y [|z l]]]; simpl in Hr; try discriminate Hr.
  by injection Hr as -> -> ->.
Qed.

Lemma join_marker_only_first (g : list str) :
  Forall (Forall (fun c => is_linebreak c = false)) g ->
  Forall (fun line => startswith heading_prefix line = false) (tl g) ->
  marker_only_first (join newline g).
Proof.
  intros Hnb. induction Hnb as [|l g Hl Hg IH]; intros Hplain a c b Heq.
  - by destruct a.
  - destruct (is_linebreak c) eqn:Hc; [exfalso|done].
    rewrite join_cons in Heq.
    destruct (break_not_in_line l _ a _ c Hl Hc Heq) as [a' Htail].
    destruct g as [|l2 g]; [by destruct a'|].
    simpl in Hplain. inversion Hplain as [|? ? Hl2 Hrest]; subst.
    unfold newline in Htail at 1.
    destruct a' as [|y a']; cbn [app] in Htail; injection Htail as _ Htail.
    + assert (startswith heading_prefix l2 = true); [|congruence].
      apply (startswith_before_break l2
               (match g with [] => [] | _ :: _ => newline ++ join newline g end)).
      * change (join newline (l2 :: g) = heading_prefix ++ b) in Htail.
        by rewrite <- join_cons, Htail.
      * destruct g; [by left|right; by eexists].
    + specialize (IH Hrest a' c b Htail). congruence.
Qed.

(** A text whose lines after the first hold no break marker is one chunk,
    or none. *)
Lemma split_single content :
  Forall (fun line => startswith heading_prefix line = false)
    (tl (splitlines content)) ->
  split_to_chunks content =
  if nonempty (ink content) then [strip (join newline (splitlines content))]
  else [].
Proof.
  intros H. unfold split_to_chunks.
  rewrite <- (ink_lines content), <- strip_nonempty_ink.
  destruct (splitlines content) as [|l ls]; [done|].
  cbn [fold_left]. simpl in H.
  assert (split_step ([], []) l = ([], [l])) as ->.
  { unfold split_step. by destruct (startswith heading_prefix l). }
  rewrite split_loop_no_heading by done. reflexivity.
Qed.

(** X4. Every chunk is a single chunk for the chunker: splitting a chunk
    returns that chunk alone. *)
Theorem chunk_splits_to_itself (content ch : str) :
  In ch (split_to_chunks content) -> split_to_chunks ch = [ch].
Proof.
  intros Hch.
  pose proof (chunks_only_lf content) as Hlf.
  rewrite List.Forall_forall in Hlf. specialize (Hlf ch Hch).
  rewrite split_to_chunks_groups in Hch.
  apply filter_In in Hch as [Hch Hne].
  apply in_map_iff in Hch as (g & <- & Hg).
  assert (marker_only_first (flushed g)) as Hm.
  { destruct (strip_split (join newline g)) as (w1 & w2 & _ & _ & Hs).
    apply (marker_only_first_sub w1 _ w2). fold (flushed g) in Hs.
    rewrite <- Hs. apply join_marker_only_first.
    - pose proof (line_groups_no_break content) as Hall.
      rewrite List.Forall_forall in Hall. by apply Hall.
    - pose proof (line_groups_tails (splitlines content)) as Hall.
      unfold tails_plain in Hall. rewrite List.Forall_forall in Hall.
      by apply Hall. }
  rewrite (split_single _ (marker_only_first_lines _ Hm)).
  rewrite <- strip_nonempty_ink.
  assert (strip (flushed g) = flushed g) as Hfix by apply strip_idem.
  rewrite Hfix, Hne. f_equal.
  rewrite strip_lines_lf; [done|].
  intros c Hc Hb. rewrite List.Forall_forall in Hlf. by apply Hlf.
Qed.

(* ===================================================================== *)
(** * Further properties of the sidecars and of the walk *)
(* ===================================================================== *)

Section Sidecars.
Context {Y : YamlCodec}.

(** X5. Saving and loading: when [generate_yaml_metadata] writes (there
    was no ".yaml" sidecar, or [overwrite] is set, and the path can be
    written), a codec that reads back what it dumps makes
    [load_yaml_metadata] return the saved [doc_id] and [tags], whatever
    the ".yml" sidecar holds. *)
Theorem save_then_load (f : path) (doc_id : pyval) (tags : list pyval)
    (overwrite : bool) (fs : fsys) :
  round_trips Y ->
  with_suffix f YAML_EXT ∉ readonly fs ->
  files fs !! with_suffix f YAML_EXT = None \/ overwrite = true ->
  exists fs' l l',
    generate_yaml_metadata f doc_id tags overwrite fs
    = (Ok (with_suffix f YAML_EXT), fs', l)
    /\ load_yaml_metadata f fs' = (Ok (descriptor doc_id tags), fs', l')
    /\ py_get (descriptor doc_id tags) DOC_ID VNone = Ok doc_id
    /\ py_get (descriptor doc_id tags) TAGS (VList []) = Ok (VList tags).
Proof.
  intros Hrt Hro Hcond.
  rewrite generate_run by (by apply stat_error_writable).
  assert (bool_decide (is_Some (files fs !! with_suffix f YAML_EXT))
          && negb overwrite = false) as ->.
  { destruct Hcond as [Hn| ->]; [|by rewrite andb_false_r].
    by rewrite (found_false _ _ Hn). }
  rewrite (bool_decide_eq_false_2 _ Hro).
  set (fs' := with_sidecar fs (with_suffix f YAML_EXT)
                (dump (descriptor doc_id tags))).
  destruct (load_yaml_metadata_run f fs') as [l' Hload].
  exists fs', [(INFO, SidecarCreated (with_suffix f YAML_EXT))], l'.
  split; [done|]. split; [|done].
  rewrite Hload. do 2 f_equal. unfold loaded, fs'. simpl.
  rewrite lookup_insert_eq. simpl. by rewrite Hrt.
Qed.

(** X6. A ".yaml" sidecar whose content parses to something truthy that
    is not a mapping (a list, a string, a number) makes the document fail
    with an [AttributeError] in every mode, also with [overwrite_yaml]:
    nothing is written and the document gives no chunk. *)
Theorem non_mapping_sidecar_fails (auto ow : bool) (f : path) (fs : fsys)
    (content text' : str) (v : pyval) :
  files fs !! f = Some (File content) ->
  files fs !! with_suffix f YAML_EXT = Some (File text') ->
  safe_load text' = Ok v ->
  truthy v = true ->
  (forall m, v <> VDict m) ->
  exists l,
    process_file auto ow f fs = (Raise (attribute_error v (lit "get")), fs, l).
Proof.
  intros Hf Hy Hload Ht Hv.
  destruct (process_file_run auto ow f fs) as [l Hpf].
  rewrite Hf in Hpf.
  assert (loaded fs f = Ok v) as Hmd.
  { unfold loaded. rewrite Hy. simpl. by rewrite Hload, Ht. }
  rewrite Hmd in Hpf. exists l.
  destruct v as [| b | z | s | lst | m]; try done. by destruct (Hv m).
Qed.

(** X7. With [overwrite_yaml], a readable document whose Descriptor is a
    mapping is processed under its filename stem and its heading tags,
    whatever the Descriptor holds, and (with automatic sidecars, on a path
    that can be written) its ".yaml" sidecar is replaced by exactly these. *)
Theorem overwrite_regenerates (f : path) (fs : fsys) (content : str)
    (m : list (pyval * pyval)) :
  files fs !! f = Some (File content) ->
  loaded fs f = Ok (VDict m) ->
  with_suffix f YAML_EXT ∉ readonly fs ->
  let doc_id := VStr (stem f) in
  let tags := List.map VStr (parse_all_headers content) in
  exists l,
    process_file true true f fs
    = (Ok (produced f content doc_id tags),
       with_sidecar fs (with_suffix f YAML_EXT) (dump (descriptor doc_id tags)),
       l).
Proof.
  intros Hf Hmd Hro doc_id tags.
  destruct (process_file_run true true f fs) as [l Hpf].
  rewrite Hf, Hmd in Hpf. cbv zeta in Hpf.
  rewrite orb_true_r, (bool_decide_eq_false_2 _ Hro) in Hpf.
  simpl in Hpf. by exists l.
Qed.

(** X8. A readable document for which both probes, ".yaml" and ".yml",
    answer that nothing is there is processed under its filename stem and
    its heading tags, every chunk tagged with the first heading, or with
    "Misc" when there is none.  With automatic sidecars, and a ".yaml"
    path that can be written, the sidecar is created with exactly these;
    without them the store is left alone, writable or not. *)
Theorem fresh_document (auto ow : bool) (f : path) (fs : fsys)
    (content : str) :
  files fs !! f = Some (File content) ->
  path_exists (with_suffix f YAML_EXT) fs = (Ok false, fs, []) ->
  path_exists (with_suffix f YML_EXT) fs = (Ok false, fs, []) ->
  (auto = true -> with_suffix f YAML_EXT ∉ readonly fs) ->
  let doc_id := VStr (stem f) in
  let tags := List.map VStr (parse_all_headers content) in
  exists l,
    process_file auto ow f fs
    = (Ok (produced f content doc_id tags),
       (if auto
        then with_sidecar fs (with_suffix f YAML_EXT)
               (dump (descriptor doc_id tags))
        else fs),
       l)
    /\ List.map text (fst (produced f content doc_id tags))
       = split_to_chunks content
    /\ Forall (fun c => meta_tag c
                        = match parse_all_headers content with
                          | h :: _ => VStr h
                          | [] => VStr MISC
                          end)
         (fst (produced f content doc_id tags)).
Proof.
  intros Hf Hy Hyml Hro doc_id tags.
  apply exists_false_inv in Hy as [Hy Sy].
  apply exists_false_inv in Hyml as [Hyml Syml].
  destruct (process_file_run auto ow f fs) as [l Hpf].
  assert (loaded fs f = Ok (VDict [])) as Hmd
    by (unfold loaded; by rewrite Hy, Sy, Hyml, Syml).
  rewrite Hf, Hmd in Hpf. cbv zeta in Hpf.
  rewrite (found_false _ _ Hy) in Hpf.
  simpl in Hpf. rewrite andb_true_r in Hpf.
  assert (spec_reconciled ow f [] (parse_all_headers content) = (doc_id, tags))
    as Hdt by (by destruct ow).
  rewrite Hdt in Hpf. simpl in Hpf.
  exists l. split.
  { destruct auto; [|done].
    by rewrite (bool_decide_eq_false_2 _ (Hro eq_refl)) in Hpf. }
  unfold produced. cbn [fst]. rewrite tag_chunks_repeat.
  set (chunks := split_to_chunks content).
  set (t := match tags with t :: _ => t | [] => VStr MISC end).
  split.
  - rewrite List.map_map. simpl.
    clearbody chunks. induction chunks as [|c cs IH]; [done|].
    simpl. by rewrite IH.
  - apply List.Forall_forall. intros c Hc.
    apply in_map_iff in Hc as ([tx tg] & <- & Hin). simpl.
    apply in_combine_r in Hin. apply repeat_spec in Hin. subst tg.
    unfold t, tags. by destruct (parse_all_headers content).
Qed.

(** X9. Without [overwrite_yaml], a ".yaml" sidecar that cannot be read,
    does not parse, or parses to something falsy (an empty file) is never
    repaired: the document is processed under its filename stem and its
    heading tags, the ".yml" sidecar is not consulted, and the store is
    left as it was. *)
Theorem broken_sidecar_is_kept (auto : bool) (f : path) (fs : fsys)
    (content : str) (n : node) :
  files fs !! f = Some (File content) ->
  files fs !! with_suffix f YAML_EXT = Some n ->
  ((exists e, n = Broken e)
   \/ (exists text' e, n = File text' /\ safe_load text' = Raise e)
   \/ (exists text' v, n = File text' /\ safe_load text' = Ok v
                       /\ truthy v = false)) ->
  exists l,
    process_file auto false f fs
    = (Ok (produced f content (VStr (stem f))
             (List.map VStr (parse_all_headers content))),
       fs, l).
Proof.
  intros Hf Hy Hn.
  destruct (process_file_run auto false f fs) as [l Hpf].
  assert (loaded fs f = Ok (VDict [])) as Hmd.
  { unfold loaded. rewrite Hy.
    destruct Hn as [[e ->]|[(t' & e & -> & Hl)|(t' & v & -> & Hl & Hv)]];
      simpl; [done|by rewrite Hl|by rewrite Hl, Hv]. }
  rewrite Hf, Hmd, (found_true _ _ _ Hy) in Hpf. simpl in Hpf.
  rewrite andb_false_r in Hpf. by exists l.
Qed.

End Sidecars.

Section WalkEffects.
Context {Y : YamlCodec}.

(** What the processing of one file can do to the store, in any mode. *)
Lemma process_file_store auto ow f fs r fs1 l :
  process_file auto ow f fs = (r, fs1, l) ->
  fs1 = fs
  \/ (exists d t,
        fs1 = with_sidecar fs (with_suffix f YAML_EXT) (dump (descriptor d t))
        /\ auto = true
        /\ (files fs !! with_suffix f YAML_EXT = None \/ ow = true)).
Proof.
  intros Hrun. destruct (process_file_run auto ow f fs) as [l1 Hpf].
  rewrite Hrun in Hpf.
  destruct (files fs !! f) as [[content|e]|]; [|left; congruence..].
  destruct (loaded fs f) as [[| b | z | s | lst | m]|e'];
    try (left; congruence).
  cbv zeta in Hpf.
  destruct auto; simpl in Hpf; [|left; congruence].
  destruct (bool_decide (is_Some (files fs !! with_suffix f YAML_EXT)))
    eqn:Hy; destruct ow; simpl in Hpf; try (left; congruence).
  - destruct (bool_decide (with_suffix f YAML_EXT ∈ readonly fs));
      [left; congruence|].
    injection Hpf as _ Hfs _.
    right. eexists _, _. split; [exact Hfs|]. split; [done|by right].
  - destruct (bool_decide (with_suffix f YAML_EXT ∈ readonly fs));
      [left; congruence|].
    injection Hpf as _ Hfs _.
    right. eexists _, _. split; [exact Hfs|]. split; [done|by right].
  - apply bool_decide_eq_false in Hy. apply eq_None_not_Some in Hy.
    destruct (bool_decide (with_suffix f YAML_EXT ∈ readonly fs));
      [left; congruence|].
    injection Hpf as _ Hfs _.
    right. eexists _, _. split; [exact Hfs|]. split; [done|by left].
Qed.

(** A relation between stores that every file's processing respects is
    respected by the walk. *)
Lemma for_each_store auto ow (R : fsys -> fsys -> Prop) md_files :
  (forall fs, R fs fs) ->
  (forall a b c, R a b -> R b c -> R a c) ->
  (forall f, In f md_files ->
     forall fs r fs1 l, process_file auto ow f fs = (r, fs1, l) -> R fs fs1) ->
  forall st fs r fs' l,
    for_each (process_body auto ow) md_files st fs = (r, fs', l) -> R fs fs'.
Proof.
  intros Hrefl Htrans. induction md_files as [|f rest IH];
    intros Hstep st fs r fs' l Hrun.
  - simpl in Hrun. unfold ret in Hrun. injection Hrun as _ <- _. apply Hrefl.
  - destruct (process_file auto ow f fs) as [[r1 fs1] l1] eqn:Hf.
    destruct (for_each_cons auto ow f rest st fs r1 fs1 l1 Hf) as [l1' Hc].
    rewrite Hc in Hrun.
    destruct (for_each (process_body auto ow) rest (absorb st f r1) fs1)
      as [[r2 fs2] l2] eqn:Hrest.
    simpl in Hrun. injection Hrun as _ <- _.
    apply (Htrans fs fs1 fs2).
    + eapply Hstep; [by left|exact Hf].
    + eapply IH; [|exact Hrest]. intros g Hg. apply Hstep. by right.
Qed.

(** X10. With automatic sidecars off, the run leaves the store exactly as
    it found it, also with [overwrite_yaml]. *)
Theorem no_auto_no_write (md_files : list path) (ow : bool) (fs fs' : fsys)
    (r : res (list chunk_obj * report)) (l : list log_entry) :
  process_markdown_docs md_files false ow fs = (r, fs', l) -> fs' = fs.
Proof.
  intros Hrun. symmetry.
  apply (for_each_store false ow eq md_files) in Hrun; [done|done| |].
  - intros a b c. congruence.
  - intros f _ fs0 r0 fs1 l0 Hf.
    destruct (process_file_store _ _ _ _ _ _ _ Hf)
      as [->|(d & t & _ & Hauto & _)]; done.
Qed.

(** X11. Without [overwrite_yaml], the run never changes or removes what
    is in the store: every document and every sidecar that existed
    before the run is the same after it. *)
Theorem no_overwrite_keeps_existing (md_files : list path) (auto : bool)
    (fs fs' : fsys) (r : res (list chunk_obj * report)) (l : list log_entry) :
  process_markdown_docs md_files auto false fs = (r, fs', l) ->
  forall p n, files fs !! p = Some n -> files fs' !! p = Some n.
Proof.
  intros Hrun.
  set (R := fun a b : fsys =>
         forall p n, files a !! p = Some n -> files b !! p = Some n).
  apply (for_each_store auto false R md_files
           (fun a p n H => H)
           (fun a b c Hab Hbc p n Hp => Hbc p n (Hab p n Hp)))
    with (st := ([], Report [] [])) (r := r) (l := l); [|exact Hrun].
  intros f _ fs0 r0 fs1 l0 Hf p n Hp.
  destruct (process_file_store _ _ _ _ _ _ _ Hf)
    as [->|(d & t & -> & _ & [Hnone|Hfalse])]; [done| |done].
  simpl. rewrite lookup_insert_ne; [done|]. congruence.
Qed.

(** X12. In every mode the run writes nothing but ".yaml" sidecars of the
    listed files, and what it writes is a dumped descriptor: every other
    path keeps its node, so the Markdown documents and the ".yml" sidecars
    are never modified, and the set of unwritable paths is the same. *)
Theorem only_sidecars_are_written (md_files : list path) (auto ow : bool)
    (fs fs' : fsys) (r : res (list chunk_obj * report)) (l : list log_entry) :
  process_markdown_docs md_files auto ow fs = (r, fs', l) ->
  readonly fs' = readonly fs
  /\ (forall p,
        files fs' !! p = files fs !! p
        \/ ((exists f, In f md_files /\ p = with_suffix f YAML_EXT)
            /\ exists d t, files fs' !! p = Some (File (dump (descriptor d t)))))
  /\ (forall f, is_md f -> files fs' !! f = files fs !! f)
  /\ (forall f, files fs' !! with_suffix f YML_EXT
                = files fs !! with_suffix f YML_EXT).
Proof.
  intros Hrun.
  set (R := fun a b : fsys =>
         readonly b = readonly a
         /\ forall p,
              files b !! p = files a !! p
              \/ ((exists f, In f md_files /\ p = with_suffix f YAML_EXT)
                  /\ exists d t,
                       files b !! p = Some (File (dump (descriptor d t))))).
  assert (R fs fs') as [Hro Hfiles].
  { apply (for_each_store auto ow R md_files) in Hrun; [done| | |].
    - intros a. split; [done|]. intros p. by left.
    - intros a b c [Hr1 H1] [Hr2 H2]. split; [congruence|]. intros p.
      destruct (H2 p) as [Hcb|Hnew]; [|by right].
      rewrite Hcb. apply H1.
    - intros f Hin fs0 r0 fs1 l0 Hf.
      destruct (process_file_store _ _ _ _ _ _ _ Hf)
        as [->|(d & t & -> & _ & _)].
      + split; [done|]. intros p. by left.
      + split; [done|]. intros p. simpl.
        destruct (decide (with_suffix f YAML_EXT = p)) as [<-|Hne].
        * right. split; [by exists f|].
          exists d, t. by rewrite lookup_insert_eq.
        * left. by rewrite lookup_insert_ne. }
  split_and!; [done|done| |].
  - intros f Hmd. destruct (Hfiles f) as [?|[(g & _ & Hg) _]]; [done|].
    symmetry in Hg. by apply yaml_not_md in Hg.
  - intros f. destruct (Hfiles (with_suffix f YML_EXT))
      as [?|[(g & _ & Hg) _]]; [done|].
    symmetry in Hg. by apply yaml_not_yml in Hg.
Qed.

End WalkEffects.

Section WalkResults.
Context {Y : YamlCodec}.

(** The walk absorbs one outcome per file, in order. *)
Lemma for_each_outs auto ow md_files st fs st' fs' l :
  for_each (process_body auto ow) md_files st fs = (Ok st', fs', l) ->
  exists outs,
    st' = absorb_all st outs
    /\ List.map fst outs = md_files
    /\ Forall (fun fr => exists fs0 fs1 l0,
                 process_file auto ow (fst fr) fs0 = (snd fr, fs1, l0)) outs.
Proof.
  revert st fs st' fs' l.
  induction md_files as [|f rest IH]; intros st fs st' fs' l Hrun.
  - simpl in Hrun. unfold ret in Hrun. injection Hrun as <- _ _.
    exists []. split_and!; [done|done|constructor].
  - destruct (process_file auto ow f fs) as [[r fs1] l1] eqn:Hf.
    destruct (for_each_cons auto ow f rest st fs r fs1 l1 Hf) as [l1' Hc].
    rewrite Hc in Hrun.
    destruct (for_each (process_body auto ow) rest (absorb st f r) fs1)
      as [[r2 fs2] l2] eqn:Hrest.
    simpl in Hrun. injection Hrun as -> _ _.
    destruct (IH _ _ _ _ _ Hrest) as (outs & -> & Hfiles & Hall).
    exists ((f, r) :: outs). split_and!; [done|by rewrite <- Hfiles|].
    constructor; [|done]. simpl. eauto.
Qed.

Lemma process_file_ok auto ow f fs out fs1 l :
  process_file auto ow f fs = (Ok out, fs1, l) ->
  exists content d t, out = produced f content d t.
Proof.
  intros Hrun. destruct (process_file_run auto ow f fs) as [l1 Hpf].
  rewrite Hrun in Hpf.
  destruct (files fs !! f) as [[content|e]|]; try discriminate Hpf.
  destruct (loaded fs f) as [[| b | z | s | lst | m]|e'];
    try discriminate Hpf.
  cbv zeta in Hpf. exists content.
  repeat match type of Hpf with
         | context [if ?b then _ else _] => destruct b
         end; try discriminate Hpf; injection Hpf as -> _ _; eauto.
Qed.

Lemma chunks_nonempty_trimmed content ch :
  In ch (split_to_chunks content) -> ch <> [] /\ strip ch = ch.
Proof.
  rewrite split_to_chunks_groups. intros Hch.
  apply filter_In in Hch as [Hch Hne].
  apply in_map_iff in Hch as (g & <- & _).
  split; [by destruct (flushed g)|apply strip_idem].
Qed.

Lemma produced_chunks f content d t :
  length (fst (produced f content d t)) = length (split_to_chunks content)
  /\ Forall (fun c => chunk_well_formed c
                      /\ chunk_of_entry (snd (produced f content d t)) c)
       (fst (produced f content d t)).
Proof.
  unfold produced. cbn [fst snd]. rewrite tag_chunks_repeat. split.
  - rewrite length_map, length_combine, repeat_length. lia.
  - apply List.Forall_forall. intros c Hc.
    apply in_map_iff in Hc as ([tx tg] & <- & Hin).
    pose proof (in_combine_l _ _ _ _ Hin) as Htx.
    apply in_combine_r, repeat_spec in Hin. subst tg.
    destruct (chunks_nonempty_trimmed content tx Htx) as [Hne Hfix].
    by split_and!.
Qed.

End WalkResults.

Section WalkReport.
Context {Y : YamlCodec}.

Lemma absorb_all_counts st outs :
  Forall (fun fr => forall out, snd fr = Ok out ->
            p_chunks (snd out) = length (fst out)
            /\ p_file (snd out) = path_str (fst fr)) outs ->
  exists ps es,
    processed (snd (absorb_all st outs)) = processed (snd st) ++ ps
    /\ errors (snd (absorb_all st outs)) = errors (snd st) ++ es
    /\ (length ps + length es = length outs)%nat
    /\ (length (fst (absorb_all st outs))
        = length (fst st) + list_sum (List.map p_chunks ps))%nat
    /\ sublist (List.map p_file ps) (List.map path_str (List.map fst outs))
    /\ sublist (List.map e_file es) (List.map path_str (List.map fst outs)).
Proof.
  intros Hall. revert st.
  induction Hall as [|[f r] outs Hfr _ IH]; intros st.
  - exists [], []. simpl. rewrite !app_nil_r.
    split_and!; try done; try lia; constructor.
  - simpl. destruct (IH (absorb st f r)) as (ps & es & Hp & He & Hlen & Hacc & Hsp & Hse).
    destruct r as [out|e]; simpl in *.
    + destruct (Hfr out eq_refl) as [Hchunks Hfile].
      exists (snd out :: ps), es. split_and!.
      * by rewrite Hp, <- app_assoc.
      * done.
      * simpl. lia.
      * rewrite Hacc, length_app. simpl. lia.
      * simpl. rewrite Hfile. by constructor.
      * by constructor.
    + exists ps, (Failed (path_str f) (exn_text e) :: es). split_and!.
      * done.
      * by rewrite He, <- app_assoc.
      * simpl. lia.
      * done.
      * by constructor.
      * simpl. by constructor.
Qed.

(** X13. The report accounts for the run: every listed file has exactly
    one entry, under [processed] or under [errors], in the order of the
    walk; and the accumulator holds as many chunk records as the
    [chunks] counts of the processed entries add up to. *)
Theorem report_accounts_for_files (md_files : list path) (auto ow : bool)
    (fs fs' : fsys) (acc : list chunk_obj) (rep : report)
    (l : list log_entry) :
  process_markdown_docs md_files auto ow fs = (Ok (acc, rep), fs', l) ->
  (length (processed rep) + length (errors rep) = length md_files)%nat
  /\ length acc = list_sum (List.map p_chunks (processed rep))
  /\ sublist (List.map p_file (processed rep)) (List.map path_str md_files)
  /\ sublist (List.map e_file (errors rep)) (List.map path_str md_files).
Proof.
  intros Hrun. unfold process_markdown_docs in Hrun.
  destruct (for_each_outs _ _ _ _ _ _ _ _ Hrun) as (outs & Hst & Hfiles & Hall).
  destruct (absorb_all_counts ([], Report [] []) outs)
    as (ps & es & Hp & He & Hlen & Hacc & Hsp & Hse).
  { eapply Forall_impl; [exact Hall|].
    intros [f r] (fs0 & fs1 & l0 & Hf) out Hr. simpl in *. subst r.
    destruct (process_file_ok _ _ _ _ _ _ _ Hf) as (content & d & t & ->).
    split; [|done]. symmetry. apply (produced_chunks f content d t). }
  rewrite <- Hst in Hp, He, Hacc. simpl in Hp, He, Hacc.
  rewrite Hfiles in Hsp, Hse. subst ps es.
  split_and!; [|done|done|done].
  by rewrite <- Hfiles, length_map.
Qed.

Lemma absorb_all_chunks st outs :
  Forall (fun fr => forall out, snd fr = Ok out ->
            Forall (fun c => chunk_well_formed c
                             /\ chunk_of_entry (snd out) c) (fst out)) outs ->
  Forall (fun c => chunk_well_formed c
                   /\ exists e, In e (processed (snd st)) /\ chunk_of_entry e c)
    (fst st) ->
  Forall (fun c => chunk_well_formed c
                   /\ exists e, In e (processed (snd (absorb_all st outs)))
                                /\ chunk_of_entry e c)
    (fst (absorb_all st outs)).
Proof.
  intros Hall. revert st.
  induction Hall as [|[f r] outs Hfr _ IH]; intros st Hst; [done|].
  simpl. apply IH. destruct r as [out|e]; simpl in *.
  - apply Forall_app. split.
    + eapply Forall_impl; [exact Hst|].
      intros c [Hc (e & He & Hce)]. split; [done|].
      exists e. split; [|done]. apply in_or_app. by left.
    + eapply Forall_impl; [exact (Hfr out eq_refl)|].
      intros c [Hc Hce]. split; [done|].
      exists (snd out). split; [|done]. apply in_or_app. right. by left.
  - done.
Qed.

(** X14. Every chunk record the run returns is well formed: its text is
    non-empty and trimmed, its tag is the first of its own tag list, or
    "Misc" when that list is empty, and it belongs to a [processed] entry
    of the report with the same file, [doc_id] and [tags]. *)
Theorem accumulator_is_well_formed (md_files : list path) (auto ow : bool)
    (fs fs' : fsys) (acc : list chunk_obj) (rep : report)
    (l : list log_entry) :
  process_markdown_docs md_files auto ow fs = (Ok (acc, rep), fs', l) ->
  Forall (fun c => chunk_well_formed c
                   /\ exists e, In e (processed rep) /\ chunk_of_entry e c)
    acc.
Proof.
  intros Hrun. unfold process_markdown_docs in Hrun.
  destruct (for_each_outs _ _ _ _ _ _ _ _ Hrun) as (outs & Hst & _ & Hall).
  pose proof (absorb_all_chunks ([], Report [] []) outs) as Hgood.
  rewrite <- Hst in Hgood. apply Hgood; [|constructor].
  eapply Forall_impl; [exact Hall|].
  intros [f r] (fs0 & fs1 & l0 & Hf) out Hr. simpl in *. subst r.
  destruct (process_file_ok _ _ _ _ _ _ _ Hf) as (content & d & t & ->).
  apply produced_chunks.
Qed.

End WalkReport.

(* ===================================================================== *)
(** * Properties of the vector store *)
(* ===================================================================== *)

Section VectorStoreFacts.
Context {B : Backend}.

Lemma meets_bind {A C} (m : VM A) (k : A -> VM C) :
  meets m same_index -> (forall a, meets (k a) same_index) ->
  meets (vbind m k) same_index.
Proof.
  intros Hm Hk st w r st' w' l H. unfold vbind in H.
  destruct (m (st, w)) as [[r1 [st1 w1]] l1] eqn:Hm1.
  apply Hm in Hm1 as (H1 & H2 & H3).
  destruct r1 as [a|e]; [|by simplify_eq].
  destruct (k a (st1, w1)) as [[r2 [st2 w2]] l2] eqn:Hk1.
  apply Hk in Hk1 as (H4 & H5 & H6). simplify_eq.
  unfold same_index. split_and!; congruence.
Qed.

Lemma meets_bind_named {A} index_name (m : VM A) (k : A -> VM unit) :
  meets m same_index -> (forall a, meets (k a) (named_on_return index_name)) ->
  meets (vbind m k) (named_on_return index_name).
Proof.
  intros Hm Hk st w r st' w' l H. unfold vbind in H.
  destruct (m (st, w)) as [[r1 [st1 w1]] l1] eqn:Hm1.
  apply Hm in Hm1 as (H1 & H2 & H3).
  destruct r1 as [a|e]; [|simplify_eq; by split_and!].
  destruct (k a (st1, w1)) as [[r2 [st2 w2]] l2] eqn:Hk1.
  apply Hk in Hk1 as (H4 & H5 & H6). simplify_eq.
  unfold named_on_return. split_and!; [congruence|congruence|].
  rewrite H6. destruct r; congruence.
Qed.

Lemma meets_try {A} (m : VM A) (h : exn -> VM A) :
  meets m same_index -> (forall e, meets (h e) same_index) ->
  meets (vtry m h) same_index.
Proof.
  intros Hm Hh st w r st' w' l H. unfold vtry in H.
  destruct (m (st, w)) as [[r1 [st1 w1]] l1] eqn:Hm1.
  apply Hm in Hm1 as (H1 & H2 & H3).
  destruct r1 as [a|e]; [simplify_eq; by split_and!|].
  destruct (h e (st1, w1)) as [[r2 [st2 w2]] l2] eqn:Hh1.
  apply Hh in Hh1 as (H4 & H5 & H6). simplify_eq.
  unfold same_index. split_and!; congruence.
Qed.

Lemma meets_try_named index_name (m : VM unit) (h : exn -> VM unit) :
  meets m (named_on_return index_name) ->
  (forall e, meets (h e) same_index_raised) ->
  meets (vtry m h) (named_on_return index_name).
Proof.
  intros Hm Hh st w r st' w' l H. unfold vtry in H.
  destruct (m (st, w)) as [[r1 [st1 w1]] l1] eqn:Hm1.
  apply Hm in Hm1 as (H1 & H2 & H3).
  destruct r1 as [a|e]; [simplify_eq; by split_and!|].
  destruct (h e (st1, w1)) as [[r2 [st2 w2]] l2] eqn:Hh1.
  apply Hh in Hh1 as [(H4 & H5 & H6) [e' ->]]. simplify_eq.
  unfold named_on_return. split_and!; congruence.
Qed.

Lemma meets_vlog lv ev : meets (vlog lv ev) same_index.
Proof. intros st w r st' w' l H. unfold vlog in H. by simplify_eq. Qed.

Lemma meets_vret {A} (a : A) : meets (vret a) same_index.
Proof. intros st w r st' w' l H. unfold vret in H. by simplify_eq. Qed.

Lemma meets_call {A} (op : world -> res A * world) : meets (call op) same_index.
Proof. intros st w r st' w' l H. unfold call in H. by simplify_eq. Qed.

Lemma meets_self : meets self same_index.
Proof. intros st w r st' w' l H. unfold self in H. by simplify_eq. Qed.

Lemma meets_getenv name default : meets (os_getenv name default) same_index.
Proof. intros st w r st' w' l H. unfold os_getenv in H. by simplify_eq. Qed.

Lemma meets_add_chunk total b ic : meets (add_chunk total b ic) same_index.
Proof.
  unfold add_chunk. apply meets_bind.
  - apply meets_try; [apply meets_call|]. intros e.
    apply meets_bind; [apply meets_vlog|]. intros _. apply meets_call.
  - intros _. destruct (_ =? _)%nat; [apply meets_vlog|apply meets_vret].
Qed.

Lemma meets_vfor_each total b ics :
  meets (vfor_each (add_chunk total b) ics) same_index.
Proof.
  induction ics as [|ic ics IH]; [apply meets_vret|].
  simpl. apply meets_bind; [apply meets_add_chunk|]. by intros _.
Qed.

Lemma upload_names_index_keeps_all chunks index_name st w r st' w' l :
  upload_chunks chunks index_name (st, w) = (r, (st', w'), l) ->
  named_on_return index_name st r st'.
Proof.
  revert st w r st' w' l.
  change (meets (upload_chunks chunks index_name) (named_on_return index_name)).
  unfold upload_chunks.
  apply meets_bind_named; [apply meets_vlog|]. intros _.
  apply meets_bind_named; [apply meets_self|]. intros st0.
  apply meets_bind_named; [apply meets_call|]. intros found.
  apply meets_bind_named.
  { destruct found; [|apply meets_vret].
    apply meets_bind; [apply meets_vlog|]. intros _. apply meets_call. }
  intros _. apply meets_try_named.
  - apply meets_bind_named; [apply meets_getenv|]. intros model.
    apply meets_bind_named; [apply meets_getenv|]. intros backend.
    apply meets_bind_named; [apply meets_call|]. intros b.
    apply meets_bind_named.
    { intros st w r st' w' l H. unfold set_self in H. by simplify_eq. }
    intros _. apply meets_bind_named; [apply meets_vfor_each|]. intros _.
    apply meets_bind_named; [apply meets_vlog|]. intros _.
    apply meets_bind_named; [apply meets_call|]. intros _.
    apply meets_bind_named; [apply meets_vlog|]. intros _.
    apply meets_bind_named; [apply meets_vlog|]. intros _.
    intros st w r st' w' l H. unfold set_self in H. by simplify_eq.
  - intros e st w r st' w' l H. unfold vbind, vlog, vraise in H.
    simplify_eq. split; [done|by exists e].
Qed.

Lemma upload_names_index_keeps chunks index_name st w e st' w' l :
  upload_chunks chunks index_name (st, w) = (Raise e, (st', w'), l) ->
  current_index_name st' = current_index_name st.
Proof.
  intros H. by destruct (upload_names_index_keeps_all _ _ _ _ _ _ _ _ H)
    as (_ & _ & ?).
Qed.

(** X15. [upload_chunks] sets [current_index_name] exactly when it returns:
    after an upload that raises, the object still names the index it
    named before (or none).  It never touches the cached searcher nor the
    index directory. *)
Theorem upload_names_index_on_success (chunks : list chunk_obj)
    (index_name : str) (st st' : store) (w w' : world) (r : res unit)
    (l : list (level * store_event)) :
  upload_chunks chunks index_name (st, w) = (r, (st', w'), l) ->
  index_dir st' = index_dir st
  /\ searcher_field st' = searcher_field st
  /\ current_index_name st'
     = match r with
       | Ok _ => Some index_name
       | Raise _ => current_index_name st
       end.
Proof. apply upload_names_index_keeps_all. Qed.

Lemma search_unnamed query top_k st w :
  current_index_name st = None ->
  search query top_k (st, w)
  = (Raise (Exn (lit "ValueError") NOT_CREATED), (st, w), []).
Proof.
  intros Hn. unfold search, vbind, self, vraise. cbn [fst snd].
  by rewrite Hn.
Qed.

(** X16. A store just constructed cannot search, and uploads that raise
    do not change that: until an upload returns, [search] raises the
    [ValueError] "index not created", without any call to the library and
    without a log record. *)
Theorem search_needs_successful_upload (dir : str) (w0 w1 : world)
    (st0 : store) (s : store * world) (query : str) (top_k : Z) :
  get_vector_store dir w0 = (Ok st0, w1) ->
  after_failed_uploads (st0, w1) s ->
  search query top_k s = (Raise (Exn (lit "ValueError") NOT_CREATED), s, []).
Proof.
  intros Hinit Hups.
  assert (current_index_name st0 = None) as Hnone.
  { unfold get_vector_store, LEANNStore_init in Hinit.
    destruct (negb has_leann); [discriminate Hinit|].
    destruct (mkdir dir w0) as [[[]|e] w]; by simplify_eq. }
  assert (forall a b, after_failed_uploads a b ->
            current_index_name (fst a) = None ->
            current_index_name (fst b) = None) as Hkeep.
  { intros a b Hab. induction Hab as [a|a chunks nm e [st1 w2] l b Hup _ IH];
      [done|].
    intros Ha. apply IH. destruct a as [st w]. simpl in *.
    apply upload_names_index_keeps in Hup. congruence. }
  destruct s as [st w]. apply search_unnamed.
  by apply (Hkeep _ _ Hups).
Qed.

(** X17. The searcher is opened once and kept: after a first search has
    opened it on the index then named, every later search is answered by
    that same searcher, also after an upload under another name has
    returned; no searcher is opened on the new index. *)
Theorem search_keeps_first_searcher (st st1 st2 : store) (w w1 w2 : world)
    (first_name : str) (q1 : str) (k1 : Z) (r1 : results)
    (l1 l2 : list (level * store_event))
    (chunks : list chunk_obj) (second_name : str) (query : str) (top_k : Z) :
  current_index_name st = Some first_name ->
  searcher_field st = None ->
  search q1 k1 (st, w) = (Ok r1, (st1, w1), l1) ->
  upload_chunks chunks second_name (st1, w1) = (Ok tt, (st2, w2), l2) ->
  index_exists (joinpath (index_dir st2) second_name) w2 = true ->
  exists s w',
    new_searcher (joinpath (index_dir st) first_name) w = (Ok s, w')
    /\ searcher_field st2 = Some s
    /\ search query top_k (st2, w2)
       = match searcher_search s query top_k w2 with
         | (Ok x, w3) => (Ok x, (st2, w3), [])
         | (Raise e, w3) => (Raise e, (st2, w3), [(ERROR, SearchFailed e)])
         end.
Proof.
  intros Hname Hnone Hfirst Hup Hex.
  unfold search, vbind, vtry, self, call, set_self, vret, vraise, vlog
    in Hfirst.
  cbn [fst snd] in Hfirst. rewrite Hname, Hnone in Hfirst.
  cbn [fst snd] in Hfirst.
  destruct (index_exists (joinpath (index_dir st) first_name) w);
    [|discriminate Hfirst].
  cbn [negb fst snd] in Hfirst.
  destruct (new_searcher (joinpath (index_dir st) first_name) w)
    as [[s|e] w'] eqn:Hnew; cbn [fst snd] in Hfirst; [|discriminate Hfirst].
  destruct (searcher_search s q1 k1 w') as [[x|e] w3] eqn:Hs;
    cbn [fst snd] in Hfirst; [|discriminate Hfirst].
  injection Hfirst as _ <- _ _.
  destruct (upload_names_index_keeps_all _ _ _ _ _ _ _ _ Hup)
    as (Hdir & Hsearcher & Hcur).
  simpl in Hsearcher, Hcur.
  exists s, w'. split_and!; [done|done|].
  unfold search, vbind, vtry, self, call, set_self, vret, vraise, vlog.
  cbn [fst snd]. rewrite Hcur. cbn [fst snd]. rewrite Hex, Hsearcher.
  cbn [negb fst snd].
  by destruct (searcher_search s query top_k w2) as [[x'|e'] w4].
Qed.

End VectorStoreFacts.

(* ===================================================================== *)
(** * The further properties at concrete inputs *)
(* ===================================================================== *)

Example crlf_becomes_newline :
  split_to_chunks [97; 13; 10; 98] = [[97; 10; 98]].
Proof. by vm_compute. Qed.

Lemma chunks_follow_headings_witness :
  startswith heading_prefix (lit "## A
x
## B") = true
  /\ length (split_to_chunks (lit "## A
x
## B"))
     = length (parse_all_headers (lit "## A
x
## B")).
Proof.
  split; [reflexivity|].
  exact (proj2 (chunks_follow_headings (lit "## A
x
## B")) eq_refl).
Defined.

Lemma chunk_splits_to_itself_witness :
  In (lit "## Setup
Step 1") (split_to_chunks Demo.body)
  /\ split_to_chunks (lit "## Setup
Step 1") = [lit "## Setup
Step 1"].
Proof.
  assert (In (lit "## Setup
Step 1") (split_to_chunks Demo.body)) as H by (vm_compute; tauto).
  split; [exact H|].
  exact (chunk_splits_to_itself Demo.body _ H).
Defined.

Lemma save_then_load_witness :
  (with_suffix Demo.a_md YAML_EXT ∉ readonly Demo.fs_both)
  /\ exists fs' l l',
       @generate_yaml_metadata Toy.codec Demo.a_md (VStr (lit "new"))
         [VStr (lit "t2")] true Demo.fs_both
       = (Ok (with_suffix Demo.a_md YAML_EXT), fs', l)
       /\ @load_yaml_metadata Toy.codec Demo.a_md fs'
          = (Ok (descriptor (VStr (lit "new")) [VStr (lit "t2")]), fs', l')
       /\ py_get (descriptor (VStr (lit "new")) [VStr (lit "t2")]) DOC_ID VNone
          = Ok (VStr (lit "new"))
       /\ py_get (descriptor (VStr (lit "new")) [VStr (lit "t2")]) TAGS
            (VList []) = Ok (VList [VStr (lit "t2")]).
Proof.
  assert (with_suffix Demo.a_md YAML_EXT ∉ readonly Demo.fs_both) as Hro
    by (simpl; apply not_elem_of_empty).
  split; [exact Hro|].
  exact (@save_then_load Toy.codec Demo.a_md (VStr (lit "new"))
           [VStr (lit "t2")] true Demo.fs_both toy_round_trips Hro
           (or_intror eq_refl)).
Defined.

(** A ".yaml" sidecar that holds a YAML list. *)
Lemma non_mapping_sidecar_fails_witness :
  let listed := Toy.toy_dump (VList [VStr (lit "x")]) in
  let fs := Fsys (<[Demo.a_md := File Demo.body]>
                    (<[Demo.a_yaml := File listed]> ∅)) ∅ ∅ in
  files fs !! with_suffix Demo.a_md YAML_EXT = Some (File listed)
  /\ exists l,
       @process_file Toy.codec true true Demo.a_md fs
       = (Raise (attribute_error (VList [VStr (lit "x")]) (lit "get")), fs, l).
Proof.
  intros listed fs.
  assert (files fs !! with_suffix Demo.a_md YAML_EXT = Some (File listed))
    as Hy by (vm_compute; reflexivity).
  split; [exact Hy|].
  refine (@non_mapping_sidecar_fails Toy.codec true true Demo.a_md fs
            Demo.body listed (VList [VStr (lit "x")]) _ Hy _ eq_refl _).
  - vm_compute; reflexivity.
  - apply toy_load_dump.
  - intros m H. discriminate H.
Defined.

Lemma overwrite_regenerates_witness :
  @loaded Toy.codec Demo.fs_both Demo.a_md
  = Ok (VDict [(VStr DOC_ID, VStr (lit "X"));
               (VStr TAGS, VList [VStr (lit "t")])])
  /\ exists l,
       @process_file Toy.codec true true Demo.a_md Demo.fs_both
       = (Ok (produced Demo.a_md Demo.body (VStr (stem Demo.a_md))
                (List.map VStr (parse_all_headers Demo.body))),
          with_sidecar Demo.fs_both (with_suffix Demo.a_md YAML_EXT)
            (@dump Toy.codec
               (descriptor (VStr (stem Demo.a_md))
                  (List.map VStr (parse_all_headers Demo.body)))),
          l).
Proof.
  assert (@loaded Toy.codec Demo.fs_both Demo.a_md
          = Ok (VDict [(VStr DOC_ID, VStr (lit "X"));
                       (VStr TAGS, VList [VStr (lit "t")])])) as Hmd
    by (vm_compute; reflexivity).
  split; [exact Hmd|].
  refine (@overwrite_regenerates Toy.codec Demo.a_md Demo.fs_both Demo.body
            _ _ Hmd _).
  - vm_compute; reflexivity.
  - simpl. apply not_elem_of_empty.
Defined.

Lemma fresh_document_witness :
  path_exists (with_suffix Demo.a_md YAML_EXT) Demo.fs_plain
  = (Ok false, Demo.fs_plain, [])
  /\ path_exists (with_suffix Demo.a_md YML_EXT) Demo.fs_plain
     = (Ok false, Demo.fs_plain, [])
  /\ exists l,
       @process_file Toy.codec true false Demo.a_md Demo.fs_plain
       = (Ok (produced Demo.a_md Demo.body (VStr (stem Demo.a_md))
                (List.map VStr (parse_all_headers Demo.body))),
          with_sidecar Demo.fs_plain (with_suffix Demo.a_md YAML_EXT)
            (@dump Toy.codec
               (descriptor (VStr (stem Demo.a_md))
                  (List.map VStr (parse_all_headers Demo.body)))),
          l).
Proof.
  assert (path_exists (with_suffix Demo.a_md YAML_EXT) Demo.fs_plain
          = (Ok false, Demo.fs_plain, [])) as Hy by (vm_compute; reflexivity).
  assert (path_exists (with_suffix Demo.a_md YML_EXT) Demo.fs_plain
          = (Ok false, Demo.fs_plain, [])) as Hyml
    by (vm_compute; reflexivity).
  split; [exact Hy|]. split; [exact Hyml|].
  destruct (@fresh_document Toy.codec true false Demo.a_md Demo.fs_plain
              Demo.body) as [l [Hrun _]].
  - vm_compute; reflexivity.
  - exact Hy.
  - exact Hyml.
  - intros _. simpl. apply not_elem_of_empty.
  - by exists l.
Defined.

(** An empty ".yaml" sidecar, which the codec cannot parse. *)
Lemma broken_sidecar_is_kept_witness :
  let fs := Fsys (<[Demo.a_md := File Demo.body]>
                    (<[Demo.a_yaml := File []]> ∅)) ∅ ∅ in
  files fs !! with_suffix Demo.a_md YAML_EXT = Some (File [])
  /\ exists l,
       @process_file Toy.codec true false Demo.a_md fs
       = (Ok (produced Demo.a_md Demo.body (VStr (stem Demo.a_md))
                (List.map VStr (parse_all_headers Demo.body))),
          fs, l).
Proof.
  intros fs.
  assert (files fs !! with_suffix Demo.a_md YAML_EXT = Some (File [])) as Hy
    by (vm_compute; reflexivity).
  split; [exact Hy|].
  refine (@broken_sidecar_is_kept Toy.codec true Demo.a_md fs Demo.body
            (File []) _ Hy _).
  - vm_compute; reflexivity.
  - right. left. exists [], Toy.parse_error. split; [reflexivity|].
    vm_compute; reflexivity.
Defined.

Lemma no_auto_no_write_witness :
  exists r fs' l,
    @process_markdown_docs Toy.codec [Demo.a_md; Demo.b_md] false true
      Demo.fs_broken = (r, fs', l)
    /\ fs' = Demo.fs_broken.
Proof.
  destruct (@process_markdown_docs Toy.codec [Demo.a_md; Demo.b_md] false true
              Demo.fs_broken) as [[r fs'] l] eqn:Hrun.
  exists r, fs', l. split; [reflexivity|].
  exact (@no_auto_no_write Toy.codec _ _ _ _ _ _ Hrun).
Defined.

Lemma no_overwrite_keeps_existing_witness :
  files Demo.fs_both !! Demo.a_yaml = Some Demo.yaml_node
  /\ exists r fs' l,
       @process_markdown_docs Toy.codec [Demo.a_md] true false Demo.fs_both
       = (r, fs', l)
       /\ files fs' !! Demo.a_yaml = Some Demo.yaml_node.
Proof.
  assert (files Demo.fs_both !! Demo.a_yaml = Some Demo.yaml_node) as Hy
    by (vm_compute; reflexivity).
  split; [exact Hy|].
  destruct (@process_markdown_docs Toy.codec [Demo.a_md] true false
              Demo.fs_both) as [[r fs'] l] eqn:Hrun.
  exists r, fs', l. split; [reflexivity|].
  exact (@no_overwrite_keeps_existing Toy.codec _ _ _ _ _ _ Hrun _ _ Hy).
Defined.

Lemma only_sidecars_are_written_witness :
  is_md Demo.b_md
  /\ exists r fs' l,
       @process_markdown_docs Toy.codec [Demo.a_md; Demo.b_md] true true
         Demo.fs_broken = (r, fs', l)
       /\ files fs' !! Demo.b_md = files Demo.fs_broken !! Demo.b_md.
Proof.
  assert (is_md Demo.b_md) as Hmd by (by exists (lit "b")).
  split; [exact Hmd|].
  destruct (@process_markdown_docs Toy.codec [Demo.a_md; Demo.b_md] true true
              Demo.fs_broken) as [[r fs'] l] eqn:Hrun.
  exists r, fs', l. split; [reflexivity|].
  destruct (@only_sidecars_are_written Toy.codec _ _ _ _ _ _ _ Hrun)
    as (_ & _ & Hdocs & _).
  exact (Hdocs Demo.b_md Hmd).
Defined.

Lemma report_accounts_for_files_witness :
  exists acc rep fs' l,
    @process_markdown_docs Toy.codec [Demo.a_md; Demo.b_md] true false
      Demo.fs_broken = (Ok (acc, rep), fs', l)
    /\ (length (processed rep) + length (errors rep) = 2)%nat
    /\ length acc = list_sum (List.map p_chunks (processed rep)).
Proof.
  destruct (@for_each_total Toy.codec true false [Demo.a_md; Demo.b_md]
              ([], Report [] []) Demo.fs_broken)
    as ([acc rep] & fs' & l & Hrun).
  exists acc, rep, fs', l. split; [exact Hrun|].
  destruct (@report_accounts_for_files Toy.codec _ _ _ _ _ _ _ _ Hrun)
    as (Hcount & Hacc & _).
  by split.
Defined.

Lemma accumulator_is_well_formed_witness :
  exists acc rep fs' l,
    @process_markdown_docs Toy.codec [Demo.a_md; Demo.b_md] true false
      Demo.fs_broken = (Ok (acc, rep), fs', l)
    /\ Forall (fun c => chunk_well_formed c
                        /\ exists e, In e (processed rep) /\ chunk_of_entry e c)
         acc.
Proof.
  destruct (@for_each_total Toy.codec true false [Demo.a_md; Demo.b_md]
              ([], Report [] []) Demo.fs_broken)
    as ([acc rep] & fs' & l & Hrun).
  exists acc, rep, fs', l. split; [exact Hrun|].
  exact (@accumulator_is_well_formed Toy.codec _ _ _ _ _ _ _ _ Hrun).
Defined.

Example toy_upload_then_search :
  exists s1 l1,
    @upload_chunks ToyIndex.backend [ToyIndex.a_chunk] (lit "second")
      ToyIndex.named_first = (Ok tt, s1, l1)
    /\ current_index_name (fst s1) = Some (lit "second")
    /\ fst (fst (@search ToyIndex.backend (lit "q") 5 s1))
       = Ok [lit "idx/second"].
Proof. vm_compute. eexists _, _. split_and!; reflexivity. Qed.

Lemma upload_names_index_on_success_witness :
  exists st' w' e l,
    @upload_chunks ToyIndex.backend [ToyIndex.empty_chunk] (lit "second")
      ToyIndex.named_first = (Raise e, (st', w'), l)
    /\ current_index_name st' = Some (lit "first").
Proof.
  assert (exists st' w' e l,
            @upload_chunks ToyIndex.backend [ToyIndex.empty_chunk]
              (lit "second") ToyIndex.named_first = (Raise e, (st', w'), l))
    as (st' & w' & e & l & Hup).
  { vm_compute. eexists _, _, _, _. reflexivity. }
  exists st', w', e, l. split; [exact Hup|].
  exact (proj2 (proj2 (@upload_names_index_on_success ToyIndex.backend _ _
                         _ _ _ _ _ _ Hup))).
Defined.

Lemma search_needs_successful_upload_witness :
  exists st0 w1 s,
    @get_vector_store ToyIndex.backend (lit "idx") [] = (Ok st0, w1)
    /\ @after_failed_uploads ToyIndex.backend (st0, w1) s
    /\ @search ToyIndex.backend (lit "q") 5 s
       = (Raise (Exn (lit "ValueError") NOT_CREATED), s, []).
Proof.
  assert (@get_vector_store ToyIndex.backend (lit "idx") []
          = (Ok (Store (lit "idx") None None None), [])) as Hinit
    by reflexivity.
  assert (exists e s1 l,
            @upload_chunks ToyIndex.backend [ToyIndex.empty_chunk]
              (lit "second") (Store (lit "idx") None None None, [])
            = (Raise e, s1, l)) as (e & s1 & l & Hup).
  { vm_compute. eexists _, _, _. reflexivity. }
  assert (@after_failed_uploads ToyIndex.backend
            (Store (lit "idx") None None None, []) s1) as Hfailed.
  { eapply failed_upload; [exact Hup|apply no_upload]. }
  exists (Store (lit "idx") None None None), [], s1.
  split; [exact Hinit|]. split; [exact Hfailed|].
  exact (@search_needs_successful_upload ToyIndex.backend _ _ _ _ _ _ _
           Hinit Hfailed).
Defined.

(** After a search on "first" and an upload of "second", the answer still
    comes from the searcher opened on "first". *)
Lemma search_keeps_first_searcher_witness :
  exists st1 w1 l1 st2 w2 l2,
    @search ToyIndex.backend (lit "q") 5 ToyIndex.named_first
    = (Ok [lit "idx/first"], (st1, w1), l1)
    /\ @upload_chunks ToyIndex.backend [ToyIndex.a_chunk] (lit "second")
         (st1, w1) = (Ok tt, (st2, w2), l2)
    /\ current_index_name st2 = Some (lit "second")
    /\ @search ToyIndex.backend (lit "q") 5 (st2, w2)
       = (Ok [lit "idx/first"], (st2, w2), []).
Proof.
  assert (exists st1 w1 l1,
            @search ToyIndex.backend (lit "q") 5 ToyIndex.named_first
            = (Ok [lit "idx/first"], (st1, w1), l1))
    as (st1 & w1 & l1 & Hfirst).
  { vm_compute. eexists _, _, _. reflexivity. }
  assert (exists st2 w2 l2,
            @upload_chunks ToyIndex.backend [ToyIndex.a_chunk] (lit "second")
              (st1, w1) = (Ok tt, (st2, w2), l2)
            /\ current_index_name st2 = Some (lit "second")
            /\ @index_exists ToyIndex.backend
                 (@joinpath ToyIndex.backend (index_dir st2) (lit "second")) w2
               = true)
    as (st2 & w2 & l2 & Hup & Hname & Hex).
  { vm_compute in Hfirst. injection Hfirst as <- <- _.
    vm_compute. eexists _, _, _. split_and!; reflexivity. }
  exists st1, w1, l1, st2, w2, l2.
  split; [exact Hfirst|]. split; [exact Hup|]. split; [exact Hname|].
  destruct (@search_keeps_first_searcher ToyIndex.backend
              (fst ToyIndex.named_first) st1 st2
              (snd ToyIndex.named_first) w1 w2 (lit "first") (lit "q") 5
              [lit "idx/first"] l1 l2 [ToyIndex.a_chunk] (lit "second")
              (lit "q") 5 eq_refl eq_refl Hfirst Hup Hex)
    as (s & w' & Hnew & _ & Hsearch).
  vm_compute in Hnew. injection Hnew as <- _.
  rewrite Hsearch. reflexivity.
Defined.
